(** * Moscow_Apartment_Analysis: the helpers of [utils]

    A shallow embedding of [utils/cleaning.py], [utils/eda.py] and
    [utils/hypothesis.py], and the properties of their specification.

    - Numbers.  The code computes on float64.  The functions are written
      over an interface [Arith] of the float operations they use; its
      instance [binary64] is IEEE 754 double precision (Rocq's primitive
      floats), the arithmetic the program runs on.
    - Tables.  A [DataFrame] is a list of labelled rows with float64 columns
      ([num]) and object columns ([cat]); the label is the pandas index.
      Tables with columns of another dtype (int64, bool, ...) are not
      represented.
    - Effects.  A function that may overwrite its argument returns the
      caller's table after the call next to the returned value; an exception
      is a [Raise].
    - Library routines ([shapiro], [pearsonr], [spearmanr], [kruskal], the
      body of [mannwhitneyu], the power [x ** 2], the order in which
      [Series.sum] adds) are parameters;
      [quantile], [groupby], [concat], [reset_index] and [loc] follow pandas
      and numpy.
    - [DataFrame.query] is modelled on the expressions the code builds from
      a column name that is a plain Python name; what the parser does with
      the text built from another name is a parameter. *)

From Stdlib Require Import List String Ascii Bool Arith ZArith Lia.
From Stdlib Require Import QArith Qround Floats.
From Stdlib Require Uint63 Lqa.
From Stdlib Require Import Permutation Sorted.
Import ListNotations.

Close Scope Q_scope.
Close Scope float_scope.
Set Warnings "-inexact-float".

Open Scope nat_scope.
Open Scope string_scope.
Open Scope list_scope.

(* ================================================================== *)
(** * Exceptions *)

Inductive exn := KeyError | TypeError | ValueError.

Inductive pyresult (A : Type) : Type :=
| Ok (a : A)
| Raise (e : exn).

Arguments Ok {A} a.
Arguments Raise {A} e.

Definition bind {A B} (m : pyresult A) (f : A -> pyresult B) : pyresult B :=
  match m with
  | Ok a => f a
  | Raise e => Raise e
  end.

Notation "x <- m ;; k" := (bind m (fun x => k))
  (at level 61, m at next level, right associativity).

Definition raises {A} (m : pyresult A) : Prop := exists e, m = Raise e.

(* ================================================================== *)
(** * The float operations the code uses *)

Class Arith (F : Type) : Type := {
  nan : F;
  is_nan : F -> bool;
  of_nat : nat -> F;
  fadd : F -> F -> F;
  fsub : F -> F -> F;
  fmul : F -> F -> F;
  fdiv : F -> F -> F;
  fsqrt : F -> F;
  fle : F -> F -> bool;
  flt : F -> F -> bool
}.

Declare Scope arith_scope.
Delimit Scope arith_scope with ar.
Notation "x + y" := (fadd x y) : arith_scope.
Notation "x - y" := (fsub x y) : arith_scope.
Notation "x * y" := (fmul x y) : arith_scope.
Notation "x / y" := (fdiv x y) : arith_scope.
Notation "x <=? y" := (fle x y) : arith_scope.
Notation "x <? y" := (flt x y) : arith_scope.

(** ** binary64 *)

#[export] Instance binary64 : Arith float := {|
  nan := PrimFloat.nan;
  is_nan := PrimFloat.is_nan;
  of_nat := fun n => PrimFloat.of_uint63 (Uint63.of_Z (Z.of_nat n));
  fadd := PrimFloat.add;
  fsub := PrimFloat.sub;
  fmul := PrimFloat.mul;
  fdiv := PrimFloat.div;
  fsqrt := PrimFloat.sqrt;
  fle := PrimFloat.leb;
  flt := PrimFloat.ltb
|}.

(* ================================================================== *)
(** * Series *)

Section Series.

Context {F : Type} `{Arith F}.
Local Open Scope arith_scope.

(** [Series.dropna] on a float64 series. *)
Definition dropna (xs : list F) : list F :=
  filter (fun x => negb (is_nan x)) xs.

(** A float64 series added up from zero, left to right: the order in which
    numpy adds a series of fewer than 8 values. *)
Definition sum (xs : list F) : F :=
  fold_left fadd xs (of_nat 0).

Fixpoint insert_sorted (x : F) (l : list F) : list F :=
  match l with
  | [] => [x]
  | y :: t => if x <=? y then x :: l else y :: insert_sorted x t
  end.

Definition sort_values (xs : list F) : list F :=
  fold_right insert_sorted [] xs.

(** numpy's [_lerp(a, b, t)]: [a + (b - a) * t], and [b - (b - a) * (1 - t)]
    where [t >= 0.5]. *)
Definition lerp (a b t : F) : F :=
  if of_nat 1 / of_nat 2 <=? t then b - (b - a) * (of_nat 1 - t)
  else a + (b - a) * t.

(** [Series.quantile(q)] for [q = num/den], with the default linear
    interpolation: missing values are skipped, the position [(n-1)*q] falls
    between the sorted values [i] and [j] (the last value twice at the end),
    and numpy interpolates between them at the fractional part of the
    position.  NaN on a series with no value.  The code asks for q = 0.25
    and q = 0.75: [quantile 1 4] and [quantile 3 4], whose positions and
    fractions are exact on float64. *)
Definition quantile (num den : nat) (xs : list F) : F :=
  let s := sort_values (dropna xs) in
  match s with
  | [] => nan
  | _ =>
      let pos := ((List.length s - 1) * num)%nat in
      let lo := Nat.div pos den in
      let i := nth lo s nan in
      let j := nth (S lo) s i in
      lerp i j (of_nat (Nat.modulo pos den) / of_nat den)
  end.

End Series.

(* ================================================================== *)
(** * Grouping *)

Section GroupBy.

Context {K A : Type}.

(** The equality and the order of the group keys. *)
Variable eqb leb : K -> K -> bool.

Fixpoint insert_key (k : K) (l : list K) : list K :=
  match l with
  | [] => [k]
  | k' :: t => if leb k k' then k :: l else k' :: insert_key k t
  end.

Definition sort_keys (l : list K) : list K :=
  fold_right insert_key [] l.

(** The keys present, missing ones dropped. *)
Fixpoint present_keys (key : A -> option K) (l : list A) : list K :=
  match l with
  | [] => []
  | a :: t =>
      match key a with
      | Some k => k :: present_keys key t
      | None => present_keys key t
      end
  end.

(** One key of each. *)
Fixpoint distinct (l : list K) : list K :=
  match l with
  | [] => []
  | k :: t => if existsb (eqb k) t then distinct t else k :: distinct t
  end.

Definition has_key (key : A -> option K) (k : K) (a : A) : bool :=
  match key a with
  | Some k' => eqb k' k
  | None => false
  end.

(** [groupby(col)]: one group per distinct key, in increasing key order
    ([sort=True]); a row with a missing key is in no group ([dropna=True]);
    inside a group the rows keep their order. *)
Definition groupby (key : A -> option K) (l : list A)
  : list (K * list A) :=
  map (fun k => (k, filter (has_key key k) l))
      (sort_keys (distinct (present_keys key l))).

End GroupBy.

(* ================================================================== *)
(** * Names in a query *)

(** The words Python reserves. *)
Definition python_keywords : list string :=
  ["False"; "None"; "True"; "and"; "as"; "assert"; "async"; "await";
   "break"; "class"; "continue"; "def"; "del"; "elif"; "else"; "except";
   "finally"; "for"; "from"; "global"; "if"; "import"; "in"; "is";
   "lambda"; "nonlocal"; "not"; "or"; "pass"; "raise"; "return"; "try";
   "while"; "with"; "yield"].

Definition between_ascii (lo hi a : ascii) : bool :=
  Nat.leb (nat_of_ascii lo) (nat_of_ascii a) &&
  Nat.leb (nat_of_ascii a) (nat_of_ascii hi).

Definition name_start (a : ascii) : bool :=
  between_ascii "a"%char "z"%char a || between_ascii "A"%char "Z"%char a ||
  Ascii.eqb a "_"%char.

Definition name_char (a : ascii) : bool :=
  name_start a || between_ascii "0"%char "9"%char a.

(** A plain Python name: a letter or an underscore, then letters, digits
    and underscores, and no reserved word.  In the text of a query such a
    name is read as one name and denotes the column of this name. *)
Definition plain_name (s : string) : bool :=
  match s with
  | EmptyString => false
  | String a t =>
      name_start a && forallb name_char (list_ascii_of_string t) &&
      negb (existsb (String.eqb s) python_keywords)
  end.

(** The text that [drop_outliers] hands to [DataFrame.query]. *)
Definition query_text (column : string) : string :=
  column ++ " >= @lower_bound and " ++ column ++ " <= @upper_bound".

(* ================================================================== *)
(** * Tables *)

Section Frames.

Context {F : Type} `{Arith F}.
Local Open Scope arith_scope.

(** A row: its index label, its cells in the float64 columns (NaN for a
    missing one) and in the object columns ([None] for a missing one). *)
Record Row : Type := mkRow {
  label : Z;
  num : string -> F;
  cat : string -> option string
}.

(** A table: the names of its float64 and of its object columns, in table
    order, and its rows. *)
Record DataFrame : Type := mkDF {
  float_columns : list string;
  object_columns : list string;
  rows : list Row
}.

Definition with_rows (data : DataFrame) (rs : list Row) : DataFrame :=
  {| float_columns := float_columns data;
     object_columns := object_columns data;
     rows := rs |}.

Definition in_columns (c : string) (cols : list string) : bool :=
  if in_dec string_dec c cols then true else false.

(** [data[column]] read as numbers for [quantile]: [KeyError] when the
    column is absent, [TypeError] when it holds objects. *)
Definition float_column (data : DataFrame) (column : string)
  : pyresult (list F) :=
  if in_columns column (float_columns data) then
    Ok (map (fun r => num r column) (rows data))
  else if in_columns column (object_columns data) then Raise TypeError
  else Raise KeyError.

(** What a call leaves behind: the caller's table and the returned value
    ([None] for Python's [None]). *)
Record outcome : Type := mkOutcome {
  caller_table : DataFrame;
  returned : option DataFrame
}.

(** ** [drop_outliers] *)

Definition within (lower upper : F) (column : string) (r : Row) : bool :=
  (lower <=? num r column) && (num r column <=? upper).

Definition lower_bound (k : F) (xs : list F) : F :=
  let Q1 := quantile 1 4 xs in
  let Q3 := quantile 3 4 xs in
  let IQR := Q3 - Q1 in
  Q1 - k * IQR.

Definition upper_bound (k : F) (xs : list F) : F :=
  let Q1 := quantile 1 4 xs in
  let Q3 := quantile 3 4 xs in
  let IQR := Q3 - Q1 in
  Q3 + k * IQR.

(** The rows that pass [column >= lower and column <= upper], with their
    labels. *)
Definition query_between (lower upper : F) (column : string)
    (rs : list Row) : list Row :=
  filter (within lower upper column) rs.

Section Query.

(** What [DataFrame.query] does with a text that was built from a column
    name that is not a plain name, given the table and the two local
    variables the text refers to: the parser may reject the text
    ("total area"), or read another expression in it ("a-b") and select
    rows by that one. *)
Variable query_other :
  DataFrame -> string -> F -> F -> pyresult (list Row).

(** [data.query(f"{column} >= @lower_bound and {column} <= @upper_bound")]. *)
Definition query (data : DataFrame) (column : string) (lower upper : F)
  : pyresult (list Row) :=
  if plain_name column then
    Ok (query_between lower upper column (rows data))
  else query_other data (query_text column) lower upper.

Definition drop_outliers (data : DataFrame) (column : string) (k : F)
    (inplace : bool) : pyresult outcome :=
  xs <- float_column data column ;;
  kept <- query data column (lower_bound k xs) (upper_bound k xs) ;;
  if inplace then
    Ok {| caller_table := with_rows data kept; returned := None |}
  else
    Ok {| caller_table := data; returned := Some (with_rows data kept) |}.

End Query.

(** ** [drop_outliers_grouped] *)

(** A group key: a label of an object column or a value of a float64
    column. *)
Inductive key : Type :=
| KStr (s : string)
| KNum (x : F).

(** [==] on float64 values. *)
Definition feq (x y : F) : bool := (x <=? y) && (y <=? x).

Definition key_eqb (a b : key) : bool :=
  match a, b with
  | KStr s, KStr t => String.eqb s t
  | KNum x, KNum y => feq x y
  | _, _ => false
  end.

(** The order of the keys of a column: labels as strings, numbers by
    value. *)
Definition key_leb (a b : key) : bool :=
  match a, b with
  | KStr s, KStr t => String.leb s t
  | KNum x, KNum y => x <=? y
  | KNum _, KStr _ => true
  | KStr _, KNum _ => false
  end.

(** [data.groupby(group_col)] needs the column: [KeyError] otherwise.  The
    key of a row is its cell in the column; a missing cell ([None], NaN) is
    no key. *)
Definition group_key (data : DataFrame) (group_col : string)
  : pyresult (Row -> option key) :=
  if in_columns group_col (object_columns data) then
    Ok (fun r => option_map KStr (cat r group_col))
  else if in_columns group_col (float_columns data) then
    Ok (fun r => if is_nan (num r group_col) then None
                 else Some (KNum (num r group_col)))
  else Raise KeyError.

Fixpoint mapM {A B} (f : A -> pyresult B) (l : list A) : pyresult (list B) :=
  match l with
  | [] => Ok []
  | a :: t => b <- f a ;; bs <- mapM f t ;; Ok (b :: bs)
  end.

(** The body of the loop over the groups. *)
Definition clean_group (data : DataFrame) (column : string) (k : F)
    (group : list Row) : pyresult (list Row) :=
  xs <- float_column (with_rows data group) column ;;
  let Q1 := quantile 1 4 xs in
  let Q3 := quantile 3 4 xs in
  let IQR := Q3 - Q1 in
  let lower := Q1 - k * IQR in
  let upper := Q3 + k * IQR in
  Ok (filter (within lower upper column) group).

(** [pd.concat]: [ValueError] ("No objects to concatenate") on no frame. *)
Definition pd_concat (frames : list (list Row)) : pyresult (list Row) :=
  match frames with
  | [] => Raise ValueError
  | _ => Ok (List.concat frames)
  end.

Fixpoint relabel (i : Z) (rs : list Row) : list Row :=
  match rs with
  | [] => []
  | r :: t =>
      {| label := i; num := num r; cat := cat r |} :: relabel (i + 1)%Z t
  end.

(** [reset_index(drop=True)]: the labels become 0, 1, 2, ... *)
Definition reset_index (rs : list Row) : list Row := relabel 0%Z rs.

Definition nan_row (l : Z) : Row :=
  {| label := l; num := fun _ => nan; cat := fun _ => None |}.

(** [data.loc[:] = result]: the assignment keeps the rows (the index) of
    [data]; setting with a frame aligns it on the labels, so the row
    labelled [l] takes the values of the row of [result] labelled [l], and
    missing values where [result] has no such row. *)
Definition loc_setitem (data result : list Row) : list Row :=
  map (fun r =>
         match find (fun s => Z.eqb (label s) (label r)) result with
         | Some s => {| label := label r; num := num s; cat := cat s |}
         | None => nan_row (label r)
         end) data.

Definition drop_outliers_grouped (data : DataFrame) (column group_col : string)
    (k : F) (inplace : bool) : pyresult outcome :=
  key <- group_key data group_col ;;
  cleaned <- mapM (fun g => clean_group data column k (snd g))
                  (groupby key_eqb key_leb key (rows data)) ;;
  frames <- pd_concat cleaned ;;
  let result := reset_index frames in
  if inplace then
    Ok {| caller_table := with_rows data (loc_setitem (rows data) result);
          returned := None |}
  else
    Ok {| caller_table := data; returned := Some (with_rows data result) |}.

(** ** [get_eta_correlation] *)

Section Eta.

(** [x ** 2], the power of numpy at the exponent 2: on a float64 scalar,
    and on each element of a series. *)
Variable scalar_pow2 : F -> F.
Variable series_pow2 : F -> F.

(** [Series.sum] on float64 values none of which is missing.  numpy adds
    them in an order that depends on their number: one after the other
    below 8 values, in blocks above. *)
Variable series_sum : list F -> F.

(** [Series.mean]: the sum divided by the number of values; NaN on an empty
    series. *)
Definition mean (xs : list F) : F :=
  match xs with
  | [] => nan
  | _ => series_sum xs / of_nat (List.length xs)
  end.

(** The rows of [pd.DataFrame({"groups": groups, "values": values}).dropna()],
    for two series on the same index. *)
Definition eta_frame (groups : list (option key)) (values : list F)
  : list (option key * F) :=
  filter (fun gv => match fst gv with
                    | Some _ => negb (is_nan (snd gv))
                    | None => false
                    end)
         (combine groups values).

(** One turn of the loop: [(ss_between, ss_within)] after the group [vals]. *)
Definition eta_step (y_mean : F) (acc : F * F) (vals : list F) : F * F :=
  (fst acc + of_nat (List.length vals) * scalar_pow2 (mean vals - y_mean),
   snd acc + series_sum (map (fun v => series_pow2 (v - mean vals)) vals)).

Definition eta_sums (data : list (option key * F)) : F * F :=
  let y_mean := mean (map snd data) in
  fold_left (fun acc g => eta_step y_mean acc (map snd (snd g)))
            (groupby key_eqb key_leb fst data) (of_nat 0, of_nat 0).

Definition get_eta_correlation (groups : list (option key))
    (values : list F) : F :=
  let data := eta_frame groups values in
  let ss_between := fst (eta_sums data) in
  let ss_within := snd (eta_sums data) in
  if of_nat 0 <? ss_between + ss_within then
    fsqrt (ss_between / (ss_between + ss_within))
  else of_nat 0.

End Eta.

End Frames.

Arguments Row F : clear implicits.
Arguments DataFrame F : clear implicits.
Arguments outcome F : clear implicits.
Arguments key F : clear implicits.

(* ================================================================== *)
(** * Rounding the reported numbers *)

(** The nearest integer, ties to the even one. *)
Definition round_half_even (x : Q) : Z :=
  let f := Qfloor x in
  match Qcompare (x - inject_Z f) (1 # 2) with
  | Lt => f
  | Gt => (f + 1)%Z
  | Eq => if Z.even f then f else (f + 1)%Z
  end.

(** [round(x, 4)] on the exact rationals that stand for the coefficients
    and p-values of [get_quant_p_values]. *)
Definition round4 (x : Q) : Q :=
  inject_Z (round_half_even (x * inject_Z 10000)) / inject_Z 10000.

(** numpy's [rint] on float64: the nearest integer, ties to the even one,
    with the sign of the argument; a value of magnitude 2^52 or more is an
    integer already, and NaN stays NaN. *)
Definition rint (x : float) : float :=
  if PrimFloat.ltb (PrimFloat.abs x) 0x1p52%float then
    let r := PrimFloat.sub (PrimFloat.add (PrimFloat.abs x) 0x1p52%float)
                           0x1p52%float in
    if PrimFloat.get_sign x then PrimFloat.opp r else r
  else x.

(** [10 ** decimals] as a float64. *)
Definition power_of_ten (decimals : nat) : float :=
  PrimFloat.of_uint63 (Uint63.of_Z (10 ^ Z.of_nat decimals)).

(** [round(x, decimals)] on a [numpy.float64], which is [numpy.round]: the
    value is multiplied by [10 ** decimals], brought to the nearest integer
    by [rint], and divided by [10 ** decimals]. *)
Definition round_float64 (x : float) (decimals : nat) : float :=
  PrimFloat.div (rint (PrimFloat.mul x (power_of_ten decimals)))
                (power_of_ten decimals).

(* ================================================================== *)
(** * Calling a Python function *)

Section Calls.

Variable V : Type.

(** The parameters of a function: those that may be passed by position, in
    order, of which the first [required] have no default, and those that
    are keyword-only (all with defaults here). *)
Record signature : Type := mkSignature {
  positional : list string;
  required : nat;
  keyword_only : list string
}.

Definition bound (name : string) (b : list (string * V)) : bool :=
  existsb (fun nv => String.eqb (fst nv) name) b.

(** Keyword arguments, one by one: a name that is no parameter, or that a
    positional argument already filled, is a [TypeError]. *)
Fixpoint bind_keywords (sig : signature) (b : list (string * V))
    (kwargs : list (string * V)) : pyresult (list (string * V)) :=
  match kwargs with
  | [] => Ok b
  | (name, v) :: t =>
      if bound name b then Raise TypeError
      else if in_dec string_dec name (positional sig ++ keyword_only sig)
      then bind_keywords sig (b ++ [(name, v)]) t
      else Raise TypeError
  end.

(** A call with positional and keyword arguments: too many positional
    arguments, a parameter given twice, an unknown keyword or a missing
    required parameter is a [TypeError]; otherwise the arguments are bound
    and the body runs. *)
Definition bind_call (sig : signature) (args : list V)
    (kwargs : list (string * V)) : pyresult (list (string * V)) :=
  if Nat.ltb (List.length (positional sig)) (List.length args) then
    Raise TypeError
  else
    b <- bind_keywords sig (combine (positional sig) args) kwargs ;;
    if forallb (fun name => bound name b) (firstn (required sig) (positional sig))
    then Ok b
    else Raise TypeError.

(** The value bound to a parameter. *)
Definition argument (name : string) (b : list (string * V)) : option V :=
  option_map snd (find (fun nv => String.eqb (fst nv) name) b).

End Calls.

Arguments bound {V} name b.
Arguments bind_keywords {V} sig b kwargs.
Arguments bind_call {V} sig args kwargs.
Arguments argument {V} name b.

(** [scipy.stats.mannwhitneyu(x, y, use_continuity=True,
    alternative='two-sided', axis=0, method='auto', *, nan_policy, keepdims)]. *)
Definition mannwhitneyu_signature : signature :=
  {| positional := ["x"; "y"; "use_continuity"; "alternative"; "axis"; "method"];
     required := 2;
     keyword_only := ["nan_policy"; "keepdims"] |}.

(* ================================================================== *)
(** * [cleaning.check_normality] *)

Module Normality.
Record row : Type := mkRow {
  column : string;
  p_value : float;
  distribution : string
}.
End Normality.

Section CheckNormality.

Context {F : Type} `{Arith F}.

(** A column taken out of a table: float64 values or objects. *)
Inductive series : Type :=
| SFloat (xs : list F)
| SObject (xs : list (option string)).

(** [df[col]]: [KeyError] when the column is absent. *)
Definition getitem (df : DataFrame F) (col : string) : pyresult series :=
  if in_columns col (float_columns df) then
    Ok (SFloat (map (fun r => num r col) (rows df)))
  else if in_columns col (object_columns df) then
    Ok (SObject (map (fun r => cat r col) (rows df)))
  else Raise KeyError.

Definition notna (x : F) : bool := negb (is_nan x).

Definition present (x : option string) : bool :=
  match x with
  | Some _ => true
  | None => false
  end.

(** [Series.dropna]. *)
Definition series_dropna (s : series) : series :=
  match s with
  | SFloat xs => SFloat (filter notna xs)
  | SObject xs => SObject (filter present xs)
  end.

(** [scipy.stats.shapiro]: (statistic, p-value), both float64, or an
    exception. *)
Variable shapiro : series -> pyresult (float * float).

Definition check_normality (df : DataFrame F) (columns : option (list string))
    (alpha : float) : pyresult (list Normality.row) :=
  let columns :=
    match columns with
    | None => float_columns df
    | Some cs => cs
    end in
  mapM (fun col =>
          s <- getitem df col ;;
          sp <- shapiro (series_dropna s) ;;
          let p := snd sp in
          let result :=
            if PrimFloat.leb alpha p then "Нормальное" else "Асимметричное" in
          Ok {| Normality.column := col;
                Normality.p_value := round_float64 p 4;
                Normality.distribution := result |})
       columns.

End CheckNormality.

Arguments series F : clear implicits.

(* ================================================================== *)
(** * [hypothesis] *)

Module Correlation.
Record row : Type := mkRow {
  column : string;
  p_value : Q;
  correlation : Q;
  method : string;
  conclusion : string
}.
End Correlation.

Section Statistics.

Context {F : Type} `{Arith F}.

(** An argument of a library call: a list of numbers, a list of objects or
    a string. *)
Inductive pyvalue : Type :=
| VList (xs : list F)
| VObjects (xs : list (option string))
| VStr (s : string).

(** The library routines of [get_quant_p_values]: each returns
    (statistic, p-value) or raises.  Their results are kept as exact
    rationals. *)
Variable shapiro : list F -> pyresult (Q * Q).
Variable pearsonr : list F -> list F -> pyresult (Q * Q).
Variable spearmanr : list F -> list F -> pyresult (Q * Q).

Definition _is_normal (column : list F) (alpha : Q) : pyresult bool :=
  sp <- shapiro column ;;
  let p := snd sp in
  if Qle_bool alpha p then Ok true else Ok false.

(** [columns.drop(target)]: [KeyError] when [target] is not among them. *)
Definition drop_label (target : string) (columns : list string)
  : pyresult (list string) :=
  if in_columns target columns then
    Ok (filter (fun c => negb (String.eqb c target)) columns)
  else Raise KeyError.

Definition get_quant_p_values (df : DataFrame F) (target : string)
    (factors : option (list string)) : pyresult (list Correlation.row) :=
  factors <- match factors with
             | None => drop_label target (float_columns df)
             | Some fs => Ok fs
             end ;;
  mapM (fun factor =>
          xs <- float_column df factor ;;
          normal_factor <- _is_normal xs (5 # 100) ;;
          both <- (if normal_factor : bool then
                     ys <- float_column df target ;; _is_normal ys (5 # 100)
                   else Ok false) ;;
          ys <- float_column df target ;;
          rp_method <- (if both : bool then
                          rp <- pearsonr xs ys ;; Ok (rp, "Pearson")
                        else
                          rp <- spearmanr xs ys ;; Ok (rp, "Spearman")) ;;
          let r := fst (fst rp_method) in
          let p := snd (fst rp_method) in
          let conclusion :=
            if Qle_bool p (5 # 100) then "Есть статистически значимая разница."
            else "Нет статистически значимой разницы." in
          Ok {| Correlation.column := factor;
                Correlation.p_value := round4 p;
                Correlation.correlation := round4 r;
                Correlation.method := snd rp_method;
                Correlation.conclusion := conclusion |})
       factors.

(** [df.groupby(factor)[target].apply(list)]: the cells of [target] in each
    group, the groups in key order; [KeyError] when a column is absent. *)
Definition grouped_lists (df : DataFrame F) (target factor : string)
  : pyresult (list pyvalue) :=
  key <- group_key df factor ;;
  cells <- (if in_columns target (float_columns df) then
              Ok (fun g => VList (map (fun r => num r target) g))
            else if in_columns target (object_columns df) then
              Ok (fun g => VObjects (map (fun r => cat r target) g))
            else Raise KeyError) ;;
  Ok (map (fun g => cells (snd g))
          (groupby key_eqb key_leb key (rows df))).

(** The printed line: the factor, the p-value (printed with 4 decimals) and
    the verdict of [p >= 0.05]. *)
Definition message (factor : string) (p : float) : string * float * string :=
  (factor, p,
   if PrimFloat.leb 0.05%float p then "Нет статистически значимой разницы."
   else "Есть статистически значимая разница.").

(** [mannwhitneyu] after its arguments are bound, and [kruskal], which
    takes any number of samples: (statistic, p-value), both float64, or an
    exception. *)
Variable mannwhitneyu : list (string * pyvalue) -> pyresult (float * float).
Variable kruskal : list pyvalue -> pyresult (float * float).

(** [test_mannwhitney] returns what it prints. *)
Definition test_mannwhitney (df : DataFrame F) (target factor : string)
    (alternative : string) : pyresult (string * float * string) :=
  groups <- grouped_lists df target factor ;;
  args <- bind_call mannwhitneyu_signature groups
                    [("alternative", VStr alternative)] ;;
  sp <- mannwhitneyu args ;;
  Ok (message factor (snd sp)).

(** [test_kruskal] returns what it prints. *)
Definition test_kruskal (df : DataFrame F) (target factor : string)
  : pyresult (string * float * string) :=
  groups <- grouped_lists df target factor ;;
  sp <- kruskal groups ;;
  Ok (message factor (snd sp)).

End Statistics.

Arguments pyvalue F : clear implicits.


Section MannWhitneyContract.

Context {F : Type} `{Arith F}.

Definition has_nan (v : option (pyvalue F)) : bool :=
  match v with
  | Some (VList xs) => existsb is_nan xs
  | _ => false
  end.

Definition is_list (v : option (pyvalue F)) : bool :=
  match v with
  | Some (VList _) | Some (VObjects _) => true
  | _ => false
  end.

(** What [scipy.stats.mannwhitneyu] (not part of the repository) does before
    it computes anything, once its arguments are bound.  With the default
    [nan_policy='propagate'], a NaN in [x] or in [y] makes it return NaN for
    the statistic and the p-value at once.  Otherwise it validates its
    options, first of all [use_continuity not in {True, False}]: the test
    hashes the value, and a list cannot be hashed, which is a
    [TypeError]. *)
Definition mannwhitneyu_checks
    (body : list (string * pyvalue F) -> pyresult (float * float)) : Prop :=
  forall args,
    (has_nan (argument "x" args) || has_nan (argument "y" args) = true ->
     body args = Ok (PrimFloat.nan, PrimFloat.nan)) /\
    (has_nan (argument "x" args) || has_nan (argument "y" args) = false ->
     is_list (argument "use_continuity" args) = true ->
     body args = Raise TypeError).

End MannWhitneyContract.

(* ================================================================== *)
(** * Words for the statements *)

Section Views.

Context {F : Type} `{Arith F}.

(** The table a call produces: the returned one, or the caller's when the
    call returns [None]. *)
Definition produced (o : outcome F) : DataFrame F :=
  match returned o with
  | Some t => t
  | None => caller_table o
  end.

(** The rows a group keeps. *)
Definition kept_in_group (column : string) (k : F) (group : list (Row F))
  : list (Row F) :=
  let xs := map (fun r => num r column) group in
  query_between (lower_bound k xs) (upper_bound k xs) column group.

(** The rows all groups keep, group after group. *)
Definition kept_grouped (key : Row F -> option (key F)) (rs : list (Row F))
    (column : string) (k : F) : list (Row F) :=
  List.concat
    (map (fun g => kept_in_group column k (snd g))
         (groupby key_eqb key_leb key rs)).

(** The cells of a column, top to bottom. *)
Definition cells_of (df : DataFrame F) (c : string) : list F :=
  map (fun r => num r c) (rows df).

(** The columns [check_normality] examines. *)
Definition examined (df : DataFrame F) (columns : option (list string))
  : list string :=
  match columns with
  | None => float_columns df
  | Some cs => cs
  end.


(** A row has a value in the grouping column. *)
Definition has_any_key {A K} (key : A -> option K) (a : A) : bool :=
  match key a with
  | Some _ => true
  | None => false
  end.

End Views.

(** What the code relies on when it compares float64 values: a comparison
    with NaN is false. *)
Class NanOrder (F : Type) `{Arith F} : Prop := {
  fle_nan : forall x y : F,
    fle x y = true -> is_nan x = false /\ is_nan y = false
}.

(** A float64 value that is not NaN equals itself. *)
Class SelfEqual (F : Type) `{Arith F} : Prop := {
  fle_refl : forall x : F, is_nan x = false -> fle x x = true
}.

(* ================================================================== *)
(** * Sample tables (binary64) *)

Module Samples.

Definition row (l : Z) (score : float) (g : option string) : Row float :=
  {| label := l;
     num := fun c => if String.eqb c "score" then score else PrimFloat.nan;
     cat := fun c => if String.eqb c "g" then g else None |}.

Definition frame (rs : list (Row float)) : DataFrame float :=
  {| float_columns := ["score"]; object_columns := ["g"]; rows := rs |}.

(** What can be compared in a row: label, score, group. *)
Definition view (r : Row float) : Z * float * option string :=
  (label r, num r "score", cat r "g").

Definition cells (l : Z) (score : float) (g : option string)
  : Z * float * option string := (l, score, g).

(** What a call left, in comparable form: the caller's table and the
    returned one; [None] when the call raised. *)
Definition observe (o : pyresult (outcome float))
  : option (list (Z * float * option string) *
            option (list (Z * float * option string))) :=
  match o with
  | Ok out =>
      Some (map view (rows (caller_table out)),
            option_map (fun t => map view (rows t)) (returned out))
  | Raise _ => None
  end.

(** score = [10, 12, 11, 13, 9, 100], one group. *)
Definition scores : DataFrame float :=
  frame [row 0 10 (Some "a"); row 1 12 (Some "a"); row 2 11 (Some "a");
         row 3 13 (Some "a"); row 4 9 (Some "a"); row 5 100 (Some "a")].


Definition empty : DataFrame float := frame [].

(** A row whose group is missing, after a regular one. *)
Definition with_missing_group : DataFrame float :=
  frame [row 0 1 (Some "a"); row 1 1 None].

(** The same, the second row missing in both columns. *)
Definition with_missing_row : DataFrame float :=
  frame [row 0 1 (Some "a"); row 1 PrimFloat.nan None].

Definition three_groups : DataFrame float :=
  frame [row 0 1 (Some "a"); row 1 2 (Some "b"); row 2 3 (Some "c")].

(** Three groups, the score of the first row missing. *)
Definition three_groups_missing : DataFrame float :=
  frame [row 0 PrimFloat.nan (Some "a"); row 1 2 (Some "b");
         row 2 3 (Some "c")].

(** Two groups, "b" first in the table. *)
Definition two_groups : DataFrame float :=
  frame [row 0 7 (Some "b"); row 1 1 (Some "a");
         row 2 8 (Some "b"); row 3 2 (Some "a")].



(** A stand-in for [shapiro] in [check_normality]: below three values it
    answers NaN, as SciPy does (with a warning); on an object column it
    raises; otherwise W = 0.98 and p = 0.12345. *)
Definition shapiro_small (s : series float) : pyresult (float * float) :=
  match s with
  | SFloat xs =>
      if Nat.ltb (List.length xs) 3 then Ok (PrimFloat.nan, PrimFloat.nan)
      else Ok (0.98, 0.12345)%float
  | SObject _ => Raise ValueError
  end.

(** A stand-in for [mannwhitneyu] after binding: the checks of
    [mannwhitneyu_checks], then p = 0.01. *)
Definition mannwhitneyu_checked (args : list (string * pyvalue float))
  : pyresult (float * float) :=
  if has_nan (argument "x" args) || has_nan (argument "y" args) then
    Ok (PrimFloat.nan, PrimFloat.nan)
  else if is_list (argument "use_continuity" args) then Raise TypeError
  else Ok (0, 0.01)%float.




(** A table with a column of two values. *)
Definition two_values : DataFrame float :=
  frame [row 0 1 (Some "a"); row 1 2 (Some "a")].

(** A stand-in for [x ** 2]: the product [x * x], correctly rounded. *)
Definition square (x : float) : float := PrimFloat.mul x x.

Definition label_a : option (key float) := Some (KStr "a").
Definition label_b : option (key float) := Some (KStr "b").

End Samples.

(** A stand-in for the parser on other names: the sample tables ask about
    plain names only. *)
Definition no_other_query {F} `{Arith F}
  : DataFrame F -> string -> F -> F -> pyresult (list (Row F)) :=
  fun _ _ _ _ => Raise ValueError.

(** The test on a column, as [check_normality] runs it: the column is
    looked up, its missing values are dropped, the test is called. *)
Definition tested {F} `{Arith F}
    (shapiro : series F -> pyresult (float * float))
    (df : DataFrame F) (c : string) : pyresult (float * float) :=
  s <- getitem df c ;; shapiro (series_dropna s).

(** The order of the labels of an object column. *)
Definition key_le (a b : string) : Prop := String.leb a b = true.

(** A stand-in for [kruskal]: p = 0.5 on any samples. *)
Definition kruskal_half (samples : list (pyvalue float))
  : pyresult (float * float) :=
  Ok (0, 0.5)%float.

(* ================================================================== *)
(** * The values of binary64 *)

(** The exponent, the rounding and the well-formedness of binary64. *)
Abbreviation fexp64 := (SpecFloat.fexp FloatOps.prec FloatOps.emax).
Abbreviation round64 :=
  (SpecFloat.binary_round_aux FloatOps.prec FloatOps.emax).
Abbreviation valid64 := (SpecFloat.valid_binary FloatOps.prec FloatOps.emax).

(** A shifted mantissa that lost no bit. *)
Definition rec_exact (mrs : SpecFloat.shr_record) : Prop :=
  SpecFloat.shr_r mrs = false /\ SpecFloat.shr_s mrs = false.

(** The order of the values [m1 * 2^e1] and [m2 * 2^e2], on integers. *)
Definition vle (m1 e1 m2 e2 : Z) : Prop :=
  (m1 * 2 ^ (e1 - Z.min e1 e2) <= m2 * 2 ^ (e2 - Z.min e1 e2))%Z.

Definition vlt (m1 e1 m2 e2 : Z) : Prop :=
  (m1 * 2 ^ (e1 - Z.min e1 e2) < m2 * 2 ^ (e2 - Z.min e1 e2))%Z.

(** A mantissa and exponent in the form binary64 stores them. *)
Definition canonical (m e : Z) : Prop :=
  (0 < m)%Z /\ fexp64 (SpecFloat.Zdigits2 m + e)%Z = e.

(** The result of rounding, from the mantissa and exponent it settles on. *)
Definition rounded (m e : Z) : SpecFloat.spec_float :=
  match m with
  | Z0 => SpecFloat.S754_zero false
  | Zpos p =>
      if Z.leb e 971 then SpecFloat.S754_finite false p e
      else SpecFloat.S754_infinity false
  | Zneg _ => SpecFloat.S754_nan
  end.

(** The number one as binary64 stores it. *)
Definition stored_one : SpecFloat.spec_float :=
  SpecFloat.S754_finite false 4503599627370496 (-52).




(** A negative zero. *)
Definition negative_zero (x : float) : bool :=
  PrimFloat.is_zero x && PrimFloat.get_sign x.

(** What is used of [Series.sum] on a short series: numpy adds fewer than 8
    values one after the other, starting from zero.  The series of negative
    zeros only are left aside, on which the sign of the zero that comes out
    depends on the zero numpy starts from. *)
Definition adds_in_order (series_sum : list float -> float) : Prop :=
  forall xs, List.length xs < 8 -> forallb negative_zero xs = false ->
             series_sum xs = sum xs.

(** The power [x ** 2] is the product [x * x] at [x]: so it is where the
    product is exact. *)
Definition exact_square_at (pow2 : float -> float) (x : float) : Prop :=
  pow2 x = PrimFloat.mul x x.

(* ================================================================== *)
(** * Properties of the outlier filters *)

Section OutlierFacts.

Context {F : Type} `{Arith F}.
Local Open Scope arith_scope.

Variable query_other :
  DataFrame F -> string -> F -> F -> pyresult (list (Row F)).

Lemma in_columns_true (c : string) (cols : list string) :
  In c cols -> in_columns c cols = true.
Proof.
  intro Hin. unfold in_columns. destruct (in_dec string_dec c cols); tauto.
Qed.

Lemma float_column_present (data : DataFrame F) (column : string) :
  In column (float_columns data) ->
  float_column data column = Ok (map (fun r => num r column) (rows data)).
Proof.
  intro Hin. unfold float_column. now rewrite (in_columns_true _ _ Hin).
Qed.

Lemma query_between_spec (lower upper : F) (column : string)
    (rs : list (Row F)) (r : Row F) :
  In r (query_between lower upper column rs) <->
  In r rs /\ (lower <=? num r column) = true /\ (num r column <=? upper) = true.
Proof.
  unfold query_between, within. rewrite filter_In, andb_true_iff. tauto.
Qed.





End OutlierFacts.


(** The end-to-end scenario of the specification: 100 is dropped, five rows
    stay, with their labels. *)
Example scores_scenario :
  Samples.observe
    (drop_outliers no_other_query Samples.scores "score" 1.5%float false) =
  Some (map Samples.view (rows Samples.scores),
        Some [Samples.cells 0 10 (Some "a"); Samples.cells 1 12 (Some "a");
              Samples.cells 2 11 (Some "a"); Samples.cells 3 13 (Some "a");
              Samples.cells 4 9 (Some "a")]).
Proof. vm_compute. reflexivity. Qed.

(* ================================================================== *)
(** * Facts on grouping *)

Section GroupByFacts.

Context {K A : Type}.
Variable eqb leb : K -> K -> bool.
Variable key : A -> option K.


Lemma present_keys_In (k : K) (l : list A) :
  In k (present_keys key l) <-> exists a, In a l /\ key a = Some k.
Proof.
  induction l as [|a t IH]; cbn [present_keys].
  - split; [intros [] | intros [a [[] _]]].
  - destruct (key a) as [k'|] eqn:Hk.
    + cbn [In]. rewrite IH. split.
      * intros [Heq | [b [Hb Hkb]]].
        -- exists a. split; [now left | congruence].
        -- exists b. split; [now right | exact Hkb].
      * intros [b [[Heq | Hb] Hkb]].
        -- left. congruence.
        -- right. now exists b.
    + rewrite IH. split.
      * intros [b [Hb Hkb]]. exists b. split; [now right | exact Hkb].
      * intros [b [[Heq | Hb] Hkb]]; [congruence | now exists b].
Qed.


Lemma distinct_In (k : K) (l : list K) :
  In k (distinct eqb l) -> In k l.
Proof.
  induction l as [|x t IH]; [intros []|].
  cbn [distinct]. destruct (existsb (eqb x) t).
  - intro Hk. right. now apply IH.
  - intros [<- | Hk]; [now left | right; now apply IH].
Qed.


Lemma insert_key_In (k x : K) (l : list K) :
  In x (insert_key leb k l) <-> x = k \/ In x l.
Proof.
  clear eqb key. induction l as [|y t IH]; cbn [insert_key].
  - cbn. intuition.
  - destruct (leb k y); cbn [In]; [intuition|].
    rewrite IH. intuition.
Qed.

Lemma sort_keys_In (x : K) (l : list K) :
  In x (sort_keys leb l) <-> In x l.
Proof.
  clear eqb key. induction l as [|y t IH]; cbn [sort_keys fold_right]; [tauto|].
  fold (sort_keys leb t). rewrite insert_key_In, IH. cbn. intuition.
Qed.

(** Every group is named by a key that some row carries, and holds the rows
    whose key equals it. *)
Lemma groupby_In (g : K * list A) (l : list A) :
  In g (groupby eqb leb key l) ->
  snd g = filter (has_key eqb key (fst g)) l /\
  exists a, In a l /\ key a = Some (fst g).
Proof.
  unfold groupby. rewrite in_map_iff. intros [k [<- Hk]]. cbn [fst snd].
  split; [reflexivity|].
  apply (proj1 (sort_keys_In _ _)) in Hk.
  apply distinct_In in Hk.
  now apply present_keys_In.
Qed.

Lemma has_key_true (k : K) (a : A) :
  has_key eqb key k a = true -> exists k', key a = Some k' /\ eqb k' k = true.
Proof.
  unfold has_key. destruct (key a) as [k'|]; [|discriminate].
  intro Hk. now exists k'.
Qed.


(** No row with a key: no group. *)
Lemma groupby_no_key (l : list A) :
  (forall a, In a l -> key a = None) -> groupby eqb leb key l = [].
Proof.
  intro Hall. unfold groupby.
  assert (Hp : present_keys key l = []).
  { induction l as [|a t IH]; [reflexivity|].
    cbn [present_keys]. rewrite (Hall a (or_introl eq_refl)).
    apply IH. intros b Hb. apply Hall. now right. }
  now rewrite Hp.
Qed.

End GroupByFacts.

(* ================================================================== *)
(** * Properties of the grouped filter *)

Section GroupedFacts.

Context {F : Type} `{Arith F}.
Local Open Scope arith_scope.

Lemma mapM_total {A B} (f : A -> pyresult B) (g : A -> B) (l : list A) :
  (forall a, f a = Ok (g a)) -> mapM f l = Ok (map g l).
Proof.
  intro Hf. induction l as [|a t IH]; [reflexivity|].
  cbn [mapM map]. rewrite Hf, IH. reflexivity.
Qed.

Lemma clean_group_present (data : DataFrame F) (column : string) (k : F)
    (group : list (Row F)) :
  In column (float_columns data) ->
  clean_group data column k group = Ok (kept_in_group column k group).
Proof.
  intro Hin. unfold clean_group.
  rewrite float_column_present by exact Hin. reflexivity.
Qed.

Lemma group_key_present (data : DataFrame F) (group_col : string) :
  In group_col (object_columns data) ->
  group_key data group_col = Ok (fun r => option_map KStr (cat r group_col)).
Proof.
  intro Hin. unfold group_key. now rewrite (in_columns_true _ _ Hin).
Qed.

(** With both columns in the table, the call raises exactly when there is
    no group to concatenate; otherwise the mode decides what happens to the
    rows kept. *)
Lemma drop_outliers_grouped_run (data : DataFrame F) (column group_col : string)
    (k : F) (inplace : bool) (key : Row F -> option (key F)) :
  In column (float_columns data) ->
  group_key data group_col = Ok key ->
  drop_outliers_grouped data column group_col k inplace =
  match groupby key_eqb key_leb key (rows data) with
  | [] => Raise ValueError
  | _ =>
      let result := reset_index (kept_grouped key (rows data) column k) in
      if inplace then
        Ok {| caller_table := with_rows data (loc_setitem (rows data) result);
              returned := None |}
      else
        Ok {| caller_table := data; returned := Some (with_rows data result) |}
  end.
Proof.
  intros Hc Hg. unfold drop_outliers_grouped, kept_grouped.
  rewrite Hg. cbn [bind].
  rewrite (mapM_total _ (fun g => kept_in_group column k (snd g)))
    by (intro g; now apply clean_group_present).
  cbn [bind].
  destruct (groupby key_eqb key_leb key (rows data)); reflexivity.
Qed.

Lemma relabel_length (i : Z) (rs : list (Row F)) :
  List.length (relabel i rs) = List.length rs.
Proof.
  revert i. induction rs as [|r t IH]; intro i; [reflexivity|].
  cbn [relabel List.length]. now rewrite IH.
Qed.


Lemma relabel_In (i : Z) (rs : list (Row F)) (r : Row F) :
  In r (relabel i rs) ->
  exists r0, In r0 rs /\ num r = num r0 /\ cat r = cat r0.
Proof.
  revert i. induction rs as [|r0 t IH]; intros i Hr; [destruct Hr|].
  cbn [relabel In] in Hr. destruct Hr as [<- | Hr].
  - exists r0. cbn. auto.
  - destruct (IH _ Hr) as [r1 [H1 H2]]. exists r1. split; [now right | exact H2].
Qed.

(** The labels after renumbering: i, i + 1, ... *)
Lemma relabel_labels (i : Z) (rs : list (Row F)) :
  map label (relabel i rs) =
  map (fun n => (i + Z.of_nat n)%Z) (seq 0 (List.length rs)).
Proof.
  revert i. induction rs as [|r t IH]; intro i; [reflexivity|].
  cbn [relabel map List.length seq label]. f_equal; [lia|].
  rewrite IH, <- seq_shift, map_map. apply map_ext. intro n. lia.
Qed.

Lemma loc_setitem_length (data result : list (Row F)) :
  List.length (loc_setitem data result) = List.length data.
Proof. unfold loc_setitem. apply length_map. Qed.

Lemma loc_setitem_labels (data result : list (Row F)) :
  map label (loc_setitem data result) = map label data.
Proof.
  unfold loc_setitem. rewrite map_map. apply map_ext.
  intro r. destruct (find _ result); reflexivity.
Qed.

Lemma kept_grouped_In (key : Row F -> option (key F)) (rs : list (Row F))
    (column : string) (k : F) (r : Row F) :
  In r (kept_grouped key rs column k) ->
  In r rs /\ exists v, key r = Some v.
Proof.
  unfold kept_grouped. rewrite in_concat.
  intros [group [Hrs Hr]]. apply in_map_iff in Hrs. destruct Hrs as [g [<- Hg]].
  destruct (groupby_In _ _ _ g _ Hg) as [Hsnd _].
  unfold kept_in_group in Hr. apply query_between_spec in Hr.
  destruct Hr as [Hr _]. rewrite Hsnd in Hr. apply filter_In in Hr.
  destruct Hr as [Hr Hk]. split; [exact Hr|].
  apply has_key_true in Hk. destruct Hk as [k' [Hk' _]]. now exists k'.
Qed.

(** In copy mode a row whose grouping value is missing is not in the table
    returned, whatever its value in the filtered column. *)
Lemma drop_outliers_grouped_copy_no_missing_key (data : DataFrame F)
    (column group_col : string) (k : F) (out : outcome F) :
  In column (float_columns data) ->
  In group_col (object_columns data) ->
  drop_outliers_grouped data column group_col k false = Ok out ->
  caller_table out = data /\
  exists result,
    returned out = Some result /\
    forall r, In r (rows result) -> cat r group_col <> None.
Proof.
  intros Hc Hg Hrun.
  rewrite (drop_outliers_grouped_run _ _ _ _ _ _ Hc (group_key_present _ _ Hg))
    in Hrun.
  destruct (groupby _ _ _ (rows data)) eqn:Hgroups; [discriminate|].
  cbv zeta in Hrun. injection Hrun as <-. cbn [caller_table returned].
  split; [reflexivity|]. eexists. split; [reflexivity|].
  cbn [rows with_rows]. intros r Hr.
  apply relabel_In in Hr. destruct Hr as [r0 [Hr0 [_ Hcat]]].
  apply kept_grouped_In in Hr0. destruct Hr0 as [_ [v Hv]].
  rewrite Hcat. destruct (cat r0 group_col); [discriminate | discriminate Hv].
Qed.

(** In place, the grouped filter returns [None] and leaves the caller's
    table with all its rows and labels. *)
Lemma drop_outliers_grouped_inplace_keeps_index (data : DataFrame F)
    (column group_col : string) (k : F) (out : outcome F) :
  In column (float_columns data) ->
  In group_col (object_columns data) ->
  drop_outliers_grouped data column group_col k true = Ok out ->
  returned out = None /\
  map label (rows (caller_table out)) = map label (rows data).
Proof.
  intros Hc Hg Hrun.
  rewrite (drop_outliers_grouped_run _ _ _ _ _ _ Hc (group_key_present _ _ Hg))
    in Hrun.
  destruct (groupby _ _ _ (rows data)); [discriminate|].
  cbv zeta in Hrun. injection Hrun as <-. cbn [caller_table returned rows with_rows].
  split; [reflexivity | apply loc_setitem_labels].
Qed.


End GroupedFacts.

(* ================================================================== *)
(** * Comparisons on binary64 *)

Lemma SFcompare_self (f : SpecFloat.spec_float) :
  f <> SpecFloat.S754_nan -> SpecFloat.SFcompare f f = Some Eq.
Proof.
  destruct f as [s|s| |s m e]; intro Hn; try reflexivity; try contradiction.
  - destruct s; reflexivity.
  - cbn. rewrite Z.compare_refl.
    change (Pos.compare_cont Eq m m) with (Pos.compare m m).
    rewrite Pos.compare_refl. destruct s; reflexivity.
Qed.

Lemma binary64_is_nan (x : float) :
  PrimFloat.is_nan x = true <-> Prim2SF x = SpecFloat.S754_nan.
Proof.
  unfold PrimFloat.is_nan. rewrite FloatAxioms.eqb_spec. unfold SpecFloat.SFeqb.
  split.
  - intro Hx. destruct (Prim2SF x) eqn:Hsf; try reflexivity;
      rewrite SFcompare_self in Hx by discriminate; discriminate.
  - intros ->. reflexivity.
Qed.

#[export] Instance binary64_nan_order : NanOrder float.
Proof.
  constructor. intros x y. cbn [fle is_nan binary64].
  rewrite FloatAxioms.leb_spec. unfold SpecFloat.SFleb. intro Hle.
  split.
  - destruct (PrimFloat.is_nan x) eqn:Hx; [|reflexivity].
    apply binary64_is_nan in Hx. rewrite Hx in Hle. discriminate.
  - destruct (PrimFloat.is_nan y) eqn:Hy; [|reflexivity].
    apply binary64_is_nan in Hy. rewrite Hy in Hle.
    destruct (Prim2SF x); discriminate.
Qed.

#[export] Instance binary64_self_equal : SelfEqual float.
Proof.
  constructor. intros x. cbn [fle is_nan binary64]. intro Hn.
  rewrite FloatAxioms.leb_spec. unfold SpecFloat.SFleb.
  rewrite SFcompare_self; [reflexivity|].
  intro Hx. apply binary64_is_nan in Hx. congruence.
Qed.

(* ================================================================== *)
(** * The grouped filter on a single group *)

Section SingleGroup.

Context {F : Type} `{Arith F} `{!SelfEqual F}.
Local Open Scope arith_scope.

Variable query_other :
  DataFrame F -> string -> F -> F -> pyresult (list (Row F)).



End SingleGroup.

(* ================================================================== *)
(** * The filters on the sample tables *)



(** On the table without rows the ungrouped filter returns the empty table
    and the grouped one raises, for [pd.concat] has nothing to
    concatenate. *)
Example grouped_raises_on_empty_table :
  Samples.observe
    (drop_outliers no_other_query Samples.empty "score" 1.5%float false) =
    Some ([], Some []) /\
  drop_outliers_grouped Samples.empty "score" "g" 1.5%float false =
    Raise ValueError.
Proof. split; vm_compute; reflexivity. Qed.

(** C2 at score = [10, 12, 11, 13, 9, 100] in one group.  In copy mode the
    grouped filter returns the five rows kept and leaves the table alone.
    In place it returns [None], and the caller's table still has six rows:
    the five kept, and the row labelled 5 filled with missing values. *)
Theorem drop_outliers_grouped_inplace_pads
    (query_other : DataFrame float -> string -> float -> float ->
                   pyresult (list (Row float))) :
  Samples.observe
    (drop_outliers_grouped Samples.scores "score" "g" 1.5%float false) =
    Some (map Samples.view (rows Samples.scores),
          Some [Samples.cells 0 10 (Some "a"); Samples.cells 1 12 (Some "a");
                Samples.cells 2 11 (Some "a"); Samples.cells 3 13 (Some "a");
                Samples.cells 4 9 (Some "a")]) /\
  Samples.observe
    (drop_outliers_grouped Samples.scores "score" "g" 1.5%float true) =
    Some ([Samples.cells 0 10 (Some "a"); Samples.cells 1 12 (Some "a");
           Samples.cells 2 11 (Some "a"); Samples.cells 3 13 (Some "a");
           Samples.cells 4 9 (Some "a"); Samples.cells 5 PrimFloat.nan None],
          None) /\
  Samples.observe
    (drop_outliers query_other Samples.scores "score" 1.5%float true) =
    Some ([Samples.cells 0 10 (Some "a"); Samples.cells 1 12 (Some "a");
           Samples.cells 2 11 (Some "a"); Samples.cells 3 13 (Some "a");
           Samples.cells 4 9 (Some "a")],
          None).
Proof. repeat split; vm_compute; reflexivity. Qed.

(** C10 in place.  The row labelled 1 has no group.  In copy mode it is not
    in the table returned.  In place the caller's table keeps a row
    labelled 1 with a missing group: its other cells are blanked in the
    first table, and the second table comes out as it went in. *)
Theorem drop_outliers_grouped_inplace_keeps_missing_group :
  Samples.observe
    (drop_outliers_grouped Samples.with_missing_group "score" "g" 1.5%float false) =
    Some (map Samples.view (rows Samples.with_missing_group),
          Some [Samples.cells 0 1 (Some "a")]) /\
  Samples.observe
    (drop_outliers_grouped Samples.with_missing_group "score" "g" 1.5%float true) =
    Some ([Samples.cells 0 1 (Some "a"); Samples.cells 1 PrimFloat.nan None],
          None) /\
  Samples.observe
    (drop_outliers_grouped Samples.with_missing_row "score" "g" 1.5%float true) =
    Some (map Samples.view (rows Samples.with_missing_row), None).
Proof. repeat split; vm_compute; reflexivity. Qed.

(* ================================================================== *)
(** * Rounding on binary64 *)

Section Float64.

Import SpecFloat.
Local Open Scope Z_scope.

Section Digits.

Lemma digits2_pos_bounds (p : positive) :
  2 ^ (Zpos (SpecFloat.digits2_pos p) - 1) <= Zpos p <
  2 ^ Zpos (SpecFloat.digits2_pos p).
Proof.
  induction p as [p IH|p IH|]; cbn [SpecFloat.digits2_pos].
  - rewrite Pos2Z.inj_succ.
    replace (Z.succ (Zpos (SpecFloat.digits2_pos p)) - 1)
      with (Z.succ (Zpos (SpecFloat.digits2_pos p) - 1)) by lia.
    rewrite !Z.pow_succ_r by lia. lia.
  - rewrite Pos2Z.inj_succ.
    replace (Z.succ (Zpos (SpecFloat.digits2_pos p)) - 1)
      with (Z.succ (Zpos (SpecFloat.digits2_pos p) - 1)) by lia.
    rewrite !Z.pow_succ_r by lia. lia.
  - cbn. lia.
Qed.

(** The number of binary digits of a natural number. *)
Lemma Zdigits2_bounds (m : Z) :
  0 < m ->
  0 < SpecFloat.Zdigits2 m /\
  2 ^ (SpecFloat.Zdigits2 m - 1) <= m < 2 ^ SpecFloat.Zdigits2 m.
Proof.
  destruct m as [|p|p]; try lia. intros _. cbn [SpecFloat.Zdigits2].
  split; [lia | apply digits2_pos_bounds].
Qed.

Lemma pow2_pos (k : Z) : 0 <= k -> 0 < 2 ^ k.
Proof. intro Hk. apply Z.pow_pos_nonneg; lia. Qed.

Lemma pow2_le (a b : Z) : 0 <= a <= b -> 2 ^ a <= 2 ^ b.
Proof. intro H. apply Z.pow_le_mono_r; lia. Qed.

Lemma pow2_lt_inv (a b : Z) : 0 <= a -> 0 <= b -> 2 ^ a < 2 ^ b -> a < b.
Proof.
  intros Ha Hb Hlt. destruct (Z_lt_le_dec a b) as [H|H]; [exact H|].
  pose proof (pow2_le b a). lia.
Qed.

(** The digits are determined by the bounds. *)
Lemma Zdigits2_unique (m d : Z) :
  0 < d -> 2 ^ (d - 1) <= m < 2 ^ d -> SpecFloat.Zdigits2 m = d.
Proof.
  intros Hd Hm.
  assert (Hpos : 0 < m) by (pose proof (pow2_pos (d - 1)); lia).
  destruct (Zdigits2_bounds m Hpos) as [Hd' Hm'].
  assert (SpecFloat.Zdigits2 m - 1 < d).
  { apply pow2_lt_inv; lia. }
  assert (d - 1 < SpecFloat.Zdigits2 m).
  { apply pow2_lt_inv; lia. }
  lia.
Qed.

(** Dropping k low digits. *)
Lemma Zdigits2_div (m k : Z) :
  0 < m -> 0 <= k < SpecFloat.Zdigits2 m ->
  SpecFloat.Zdigits2 (m / 2 ^ k) = SpecFloat.Zdigits2 m - k.
Proof.
  intros Hm Hk. destruct (Zdigits2_bounds m Hm) as [Hd Hb].
  set (d := SpecFloat.Zdigits2 m) in *.
  pose proof (pow2_pos k ltac:(lia)) as Hk2.
  apply Zdigits2_unique; [lia|].
  replace (2 ^ (d - 1)) with (2 ^ (d - k - 1) * 2 ^ k) in Hb
    by (rewrite <- Z.pow_add_r by lia; f_equal; lia).
  replace (2 ^ d) with (2 ^ (d - k) * 2 ^ k) in Hb
    by (rewrite <- Z.pow_add_r by lia; f_equal; lia).
  split.
  - apply Z.div_le_lower_bound; lia.
  - apply Z.div_lt_upper_bound; lia.
Qed.

End Digits.

Section Shifts.

Lemma shr_1_m (mrs : shr_record) :
  0 <= shr_m mrs -> shr_m (shr_1 mrs) = shr_m mrs / 2.
Proof.
  destruct mrs as [m r s]. cbn [shr_m]. intro Hm.
  destruct m as [|[p|p|]|p]; cbn [shr_1 shr_m]; try lia.
  - reflexivity.
  - apply Z.div_unique with 1; lia.
  - apply Z.div_unique with 0; lia.
  - reflexivity.
Qed.

Lemma shr_1_exact (mrs : shr_record) (c : Z) :
  rec_exact mrs -> 0 <= c -> shr_m mrs = 2 * c ->
  rec_exact (shr_1 mrs) /\ shr_m (shr_1 mrs) = c.
Proof.
  destruct mrs as [m r s]. unfold rec_exact. cbn [shr_m shr_r shr_s].
  intros [-> ->] Hc ->.
  destruct c as [|p|p]; cbn; try lia; auto.
Qed.

Lemma iter_shr_m (p : positive) :
  forall mrs, 0 <= shr_m mrs ->
  shr_m (iter_pos shr_1 p mrs) = shr_m mrs / 2 ^ Zpos p.
Proof.
  induction p as [p IH|p IH|]; intros mrs Hm; cbn [iter_pos].
  - assert (H1 : 0 <= shr_m (shr_1 mrs)).
    { rewrite shr_1_m by exact Hm. apply Z.div_pos; lia. }
    assert (H2 : 0 <= shr_m (iter_pos shr_1 p (shr_1 mrs))).
    { rewrite IH by exact H1. apply Z.div_pos; [lia | apply pow2_pos; lia]. }
    rewrite IH, IH, shr_1_m by assumption.
    pose proof (pow2_pos (Zpos p) ltac:(lia)).
    rewrite !Zdiv.Zdiv_Zdiv by lia. f_equal.
    rewrite <- Z.pow_add_r, <- Z.pow_succ_r by lia. f_equal. lia.
  - assert (H2 : 0 <= shr_m (iter_pos shr_1 p mrs)).
    { rewrite IH by exact Hm. apply Z.div_pos; [lia | apply pow2_pos; lia]. }
    rewrite IH, IH by assumption.
    pose proof (pow2_pos (Zpos p) ltac:(lia)).
    rewrite !Zdiv.Zdiv_Zdiv by lia. f_equal.
    rewrite <- Z.pow_add_r by lia. f_equal. lia.
  - rewrite shr_1_m by exact Hm. reflexivity.
Qed.

Lemma iter_shr_exact (p : positive) :
  forall mrs c, rec_exact mrs -> 0 <= c -> shr_m mrs = c * 2 ^ Zpos p ->
  rec_exact (iter_pos shr_1 p mrs) /\ shr_m (iter_pos shr_1 p mrs) = c.
Proof.
  induction p as [p IH|p IH|]; intros mrs c Hex Hc Hm; cbn [iter_pos].
  - pose proof (pow2_pos (Zpos p) ltac:(lia)) as Hp.
    destruct (shr_1_exact mrs (c * 2 ^ Zpos p * 2 ^ Zpos p) Hex) as [He1 Hm1].
    { nia. }
    { rewrite Hm. replace (Zpos p~1) with (Z.succ (Zpos p + Zpos p)) by lia.
      rewrite Z.pow_succ_r, Z.pow_add_r by lia. lia. }
    destruct (IH _ (c * 2 ^ Zpos p) He1) as [He2 Hm2]; [nia | exact Hm1 |].
    apply (IH _ c He2); [exact Hc | exact Hm2].
  - pose proof (pow2_pos (Zpos p) ltac:(lia)) as Hp.
    destruct (IH mrs (c * 2 ^ Zpos p) Hex) as [He2 Hm2]; [nia | |].
    { rewrite Hm. replace (Zpos p~0) with (Zpos p + Zpos p) by lia.
      rewrite Z.pow_add_r by lia. lia. }
    apply (IH _ c He2); [exact Hc | exact Hm2].
  - apply shr_1_exact; [exact Hex | exact Hc |]. rewrite Hm. lia.
Qed.

Lemma round_nearest_even_bounds (m : Z) (l : location) :
  m <= round_nearest_even m l <= m + 1.
Proof.
  unfold round_nearest_even.
  destruct l as [|[| |]]; try destruct (Z.even m); lia.
Qed.

Lemma round_exact_record (mrs : shr_record) :
  rec_exact mrs ->
  round_nearest_even (shr_m mrs) (loc_of_shr_record mrs) = shr_m mrs.
Proof.
  destruct mrs as [m r s]. unfold rec_exact. cbn. intros [-> ->]. reflexivity.
Qed.

Lemma record_of_loc_m (m : Z) (l : location) :
  shr_m (shr_record_of_loc m l) = m.
Proof. destruct l as [|[| |]]; reflexivity. Qed.

Lemma record_of_exact (m : Z) : rec_exact (shr_record_of_loc m loc_Exact).
Proof. split; reflexivity. Qed.

(** What [shr_fexp] returns: the mantissa without the [n] low digits that
    the format cannot hold, at the exponent raised by [n]. *)
Lemma shr_fexp_spec (prec emax m e : Z) (l : location) :
  0 <= m ->
  let n := Z.max 0 (fexp prec emax (Zdigits2 m + e) - e) in
  shr_m (fst (shr_fexp prec emax m e l)) = m / 2 ^ n /\
  snd (shr_fexp prec emax m e l) = e + n /\
  (l = loc_Exact -> (exists c, 0 <= c /\ m = c * 2 ^ n) ->
   rec_exact (fst (shr_fexp prec emax m e l))).
Proof.
  intros Hm n. unfold shr_fexp, shr.
  destruct (fexp prec emax (Zdigits2 m + e) - e) as [|p|p] eqn:Hn; subst n;
    cbn [fst snd].
  - rewrite record_of_loc_m. change (Z.max 0 0) with 0.
    rewrite Z.pow_0_r, Z.div_1_r. split; [reflexivity|]. split; [lia|].
    intros -> _. apply record_of_exact.
  - rewrite Z.max_r by lia.
    rewrite iter_shr_m by (rewrite record_of_loc_m; exact Hm).
    rewrite record_of_loc_m. split; [reflexivity|]. split; [reflexivity|].
    intros -> [c [Hc Hmc]].
    apply (iter_shr_exact p _ c (record_of_exact m) Hc).
    now rewrite record_of_loc_m.
  - rewrite Z.max_l by lia. rewrite record_of_loc_m.
    rewrite Z.pow_0_r, Z.div_1_r. split; [reflexivity|]. split; [lia|].
    intros -> _. apply record_of_exact.
Qed.

End Shifts.

Section Values.

Lemma vle_base (c m1 e1 m2 e2 : Z) :
  c <= e1 -> c <= e2 ->
  (vle m1 e1 m2 e2 <-> m1 * 2 ^ (e1 - c) <= m2 * 2 ^ (e2 - c)).
Proof.
  intros H1 H2. unfold vle. set (k := Z.min e1 e2).
  pose proof (pow2_pos (k - c) ltac:(lia)) as Hk.
  replace (2 ^ (e1 - c)) with (2 ^ (e1 - k) * 2 ^ (k - c))
    by (rewrite <- Z.pow_add_r by lia; f_equal; lia).
  replace (2 ^ (e2 - c)) with (2 ^ (e2 - k) * 2 ^ (k - c))
    by (rewrite <- Z.pow_add_r by lia; f_equal; lia).
  rewrite !Z.mul_assoc. split; intro H.
  - apply Z.mul_le_mono_nonneg_r; lia.
  - apply Z.mul_le_mono_pos_r in H; lia.
Qed.

Lemma vlt_base (c m1 e1 m2 e2 : Z) :
  c <= e1 -> c <= e2 ->
  (vlt m1 e1 m2 e2 <-> m1 * 2 ^ (e1 - c) < m2 * 2 ^ (e2 - c)).
Proof.
  intros H1 H2. unfold vlt. set (k := Z.min e1 e2).
  pose proof (pow2_pos (k - c) ltac:(lia)) as Hk.
  replace (2 ^ (e1 - c)) with (2 ^ (e1 - k) * 2 ^ (k - c))
    by (rewrite <- Z.pow_add_r by lia; f_equal; lia).
  replace (2 ^ (e2 - c)) with (2 ^ (e2 - k) * 2 ^ (k - c))
    by (rewrite <- Z.pow_add_r by lia; f_equal; lia).
  rewrite !Z.mul_assoc. split; intro H.
  - apply Z.mul_lt_mono_pos_r; lia.
  - apply Z.mul_lt_mono_pos_r in H; lia.
Qed.

Lemma vle_trans (m1 e1 m2 e2 m3 e3 : Z) :
  vle m1 e1 m2 e2 -> vle m2 e2 m3 e3 -> vle m1 e1 m3 e3.
Proof.
  set (c := Z.min e1 (Z.min e2 e3)).
  rewrite (vle_base c m1 e1 m2 e2), (vle_base c m2 e2 m3 e3),
    (vle_base c m1 e1 m3 e3) by lia.
  lia.
Qed.

Lemma vlt_le_trans (m1 e1 m2 e2 m3 e3 : Z) :
  vlt m1 e1 m2 e2 -> vle m2 e2 m3 e3 -> vlt m1 e1 m3 e3.
Proof.
  set (c := Z.min e1 (Z.min e2 e3)).
  rewrite (vlt_base c m1 e1 m2 e2), (vle_base c m2 e2 m3 e3),
    (vlt_base c m1 e1 m3 e3) by lia.
  lia.
Qed.

Lemma vle_lt_trans (m1 e1 m2 e2 m3 e3 : Z) :
  vle m1 e1 m2 e2 -> vlt m2 e2 m3 e3 -> vlt m1 e1 m3 e3.
Proof.
  set (c := Z.min e1 (Z.min e2 e3)).
  rewrite (vle_base c m1 e1 m2 e2), (vlt_base c m2 e2 m3 e3),
    (vlt_base c m1 e1 m3 e3) by lia.
  lia.
Qed.

Lemma vle_refl (m e : Z) : vle m e m e.
Proof. unfold vle. lia. Qed.

Lemma vlt_vle (m1 e1 m2 e2 : Z) : vlt m1 e1 m2 e2 -> vle m1 e1 m2 e2.
Proof. unfold vlt, vle. lia. Qed.

Lemma vle_not_vlt (m1 e1 m2 e2 : Z) :
  vle m1 e1 m2 e2 -> ~ vlt m2 e2 m1 e1.
Proof. unfold vlt, vle. rewrite (Z.min_comm e2 e1). lia. Qed.

(** The exponent of binary64 for a magnitude. *)
Lemma fexp_eq (z : Z) :
  fexp FloatOps.prec FloatOps.emax z = Z.max (z - 53) (-1074).
Proof. reflexivity. Qed.

Lemma canonical_facts (m e : Z) :
  canonical m e ->
  -1074 <= e /\ 0 < m < 2 ^ 53 /\ (-1074 < e -> 2 ^ 52 <= m).
Proof.
  intros [Hm He]. rewrite fexp_eq in He.
  destruct (Zdigits2_bounds m Hm) as [Hd Hb].
  split; [lia|]. split.
  - split; [exact Hm|]. apply Z.lt_le_trans with (2 ^ Zdigits2 m); [lia|].
    apply pow2_le. lia.
  - intro Hlt. apply Z.le_trans with (2 ^ (Zdigits2 m - 1)); [|lia].
    apply pow2_le. lia.
Qed.

Lemma valid_canonical (s : bool) (m : positive) (e : Z) :
  valid_binary FloatOps.prec FloatOps.emax (S754_finite s m e) = true ->
  canonical (Zpos m) e /\ e <= 971.
Proof.
  cbn [valid_binary]. unfold bounded, canonical_mantissa.
  rewrite andb_true_iff, Z.eqb_eq, Z.leb_le. intros [Hc He].
  split; [split; [lia | exact Hc] | exact He].
Qed.

(** On stored numbers the comparison of binary64 is the order of the
    values. *)
Lemma SFleb_canonical (m1 m2 : positive) (e1 e2 : Z) :
  canonical (Zpos m1) e1 -> canonical (Zpos m2) e2 ->
  (SFleb (S754_finite false m1 e1) (S754_finite false m2 e2) = true <->
   vle (Zpos m1) e1 (Zpos m2) e2).
Proof.
  intros H1 H2.
  destruct (canonical_facts _ _ H1) as [He1 [Hm1 Hn1]].
  destruct (canonical_facts _ _ H2) as [He2 [Hm2 Hn2]].
  unfold SFleb, SFcompare.
  destruct (Z.compare_spec e1 e2) as [Heq|Hlt|Hgt].
  - subst e2. unfold vle. rewrite Z.min_id, Z.sub_diag, Z.pow_0_r, !Z.mul_1_r.
    change (Pos.compare_cont Eq m1 m2) with (Pos.compare m1 m2).
    destruct (Pos.compare_spec m1 m2) as [E|L|G]; split; intro H;
      try reflexivity; try discriminate; try lia.
  - split; [intros _|reflexivity].
    apply (vle_base e1); [lia | lia |].
    rewrite Z.sub_diag, Z.pow_0_r, Z.mul_1_r.
    pose proof (pow2_le 1 (e2 - e1) ltac:(lia)) as Hp.
    change (2 ^ 1) with 2 in Hp. specialize (Hn2 ltac:(lia)).
    change (2 ^ 53) with (2 * 2 ^ 52) in Hm1. nia.
  - split; [discriminate|]. intro H. exfalso.
    apply (vle_base e2) in H; [|lia|lia].
    rewrite Z.sub_diag, Z.pow_0_r, Z.mul_1_r in H.
    pose proof (pow2_le 1 (e1 - e2) ltac:(lia)) as Hp.
    change (2 ^ 1) with 2 in Hp. specialize (Hn1 ltac:(lia)).
    change (2 ^ 53) with (2 * 2 ^ 52) in Hm2. nia.
Qed.

End Values.

Section Rounding.

(** [binary_round_aux] in two steps: the digits that do not fit are dropped
    and the mantissa goes to a neighbour; if this carries into one more
    digit, once more. *)
Lemma round64_spec (M E : Z) (l : location) :
  0 <= M ->
  let n := Z.max 0 (fexp64 (Zdigits2 M + E) - E) in
  exists m1,
    M / 2 ^ n <= m1 <= M / 2 ^ n + 1 /\
    (l = loc_Exact -> (exists c, 0 <= c /\ M = c * 2 ^ n) -> m1 = M / 2 ^ n) /\
    let n2 := Z.max 0 (fexp64 (Zdigits2 m1 + (E + n)) - (E + n)) in
    round64 false M E l = rounded (m1 / 2 ^ n2) (E + n + n2).
Proof.
  intros HM n. unfold binary_round_aux.
  destruct (shr_fexp_spec FloatOps.prec FloatOps.emax M E l HM)
    as [Hm' [He' Hex]]. fold n in Hm', He', Hex.
  destruct (shr_fexp _ _ M E l) as [mrs' e'] eqn:Hs1.
  cbn [fst snd] in Hm', He', Hex. subst e'.
  set (m1 := round_nearest_even (shr_m mrs') (loc_of_shr_record mrs')).
  exists m1.
  pose proof (round_nearest_even_bounds (shr_m mrs') (loc_of_shr_record mrs'))
    as Hb. fold m1 in Hb. rewrite Hm' in Hb.
  split; [exact Hb|]. split.
  { intros Hl Hc. unfold m1. rewrite round_exact_record, Hm'; [reflexivity|].
    now apply Hex. }
  cbv zeta.
  assert (Hm1 : 0 <= m1).
  { apply Z.le_trans with (M / 2 ^ n); [|lia].
    apply Z.div_pos; [lia | apply pow2_pos; lia]. }
  destruct (shr_fexp_spec FloatOps.prec FloatOps.emax m1 (E + n) loc_Exact Hm1)
    as [Hm2 [He2 _]].
  destruct (shr_fexp _ _ m1 (E + n) loc_Exact) as [mrs'' e''] eqn:Hs2.
  cbn [fst snd] in Hm2, He2. subst e''. rewrite Hm2. reflexivity.
Qed.

(** Dropping the digits that do not fit does not go below a stored
    number. *)
Lemma trunc_ge (mB eB X Y : Z) :
  canonical mB eB -> 0 < X -> vle mB eB X Y ->
  let k := Z.max 0 (fexp64 (Zdigits2 X + Y) - Y) in
  vle mB eB (X / 2 ^ k) (Y + k).
Proof.
  intros HB HX Hle k.
  destruct (canonical_facts _ _ HB) as [HeB [HmB HnB]].
  destruct (Zdigits2_bounds X HX) as [Hd Hb].
  assert (Hk : 0 <= k) by (unfold k; lia).
  destruct (Z.eq_dec k 0) as [Hk0|Hk0].
  { rewrite Hk0, Z.pow_0_r, Z.div_1_r, Z.add_0_r. exact Hle. }
  assert (He0 : Y + k = fexp64 (Zdigits2 X + Y)) by (unfold k in *; lia).
  rewrite fexp_eq in He0.
  pose proof (pow2_pos k Hk) as Hk2.
  destruct (Z_le_gt_dec (Y + k) eB) as [Hge|Hlt].
  - apply (vle_base Y) in Hle; [|lia|lia].
    rewrite Z.sub_diag, Z.pow_0_r, Z.mul_1_r in Hle.
    apply (vle_base (Y + k)); [lia|lia|].
    rewrite Z.sub_diag, Z.pow_0_r, Z.mul_1_r.
    apply Z.div_le_lower_bound; [lia|].
    replace (2 ^ (eB - Y)) with (2 ^ k * 2 ^ (eB - (Y + k))) in Hle
      by (rewrite <- Z.pow_add_r by lia; f_equal; lia).
    lia.
  - assert (Hk53 : k = Zdigits2 X - 53) by lia.
    assert (Hdig : Zdigits2 (X / 2 ^ k) = 53).
    { rewrite Zdigits2_div by lia. lia. }
    assert (Hq : 0 < X / 2 ^ k).
    { apply Z.div_str_pos. split; [lia|].
      apply Z.le_trans with (2 ^ (Zdigits2 X - 1)); [|lia].
      apply pow2_le. lia. }
    destruct (Zdigits2_bounds _ Hq) as [_ Hqb]. rewrite Hdig in Hqb.
    change (2 ^ (53 - 1)) with (2 ^ 52) in Hqb.
    apply (vle_base eB); [lia|lia|].
    rewrite Z.sub_diag, Z.pow_0_r, Z.mul_1_r.
    pose proof (pow2_le 1 (Y + k - eB) ltac:(lia)) as Hp.
    change (2 ^ 1) with 2 in Hp.
    change (2 ^ 53) with (2 * 2 ^ 52) in HmB. nia.
Qed.

Lemma vle_positive (mB eB m e : Z) :
  0 < mB -> vle mB eB m e -> 0 < m.
Proof.
  unfold vle. intros HB H.
  pose proof (pow2_pos (eB - Z.min eB e) ltac:(lia)).
  pose proof (pow2_pos (e - Z.min eB e) ltac:(lia)).
  nia.
Qed.

(** Rounding does not go below a stored number that the exact value
    reaches. *)
Lemma round_ge (M E : Z) (l : location) (mB : positive) (eB : Z) :
  canonical (Zpos mB) eB ->
  vle (Zpos mB) eB M E ->
  valid_binary FloatOps.prec FloatOps.emax (round64 false M E l) = true ->
  SFleb (S754_finite false mB eB) (round64 false M E l) = true.
Proof.
  intros HB Hle Hvalid.
  assert (HM : 0 < M) by (apply (vle_positive (Zpos mB) eB M E); [lia | exact Hle]).
  destruct (round64_spec M E l ltac:(lia)) as [m1 [Hb [_ Hr]]].
  cbv zeta in Hr. rewrite Hr in *. clear Hr.
  set (n := Z.max 0 (fexp64 (Zdigits2 M + E) - E)) in *.
  pose proof (trunc_ge _ _ _ _ HB HM Hle) as H1. cbv zeta in H1. fold n in H1.
  assert (Hm' : 0 < M / 2 ^ n)
    by (apply (vle_positive (Zpos mB) eB _ (E + n)); [lia | exact H1]).
  assert (H1' : vle (Zpos mB) eB m1 (E + n)).
  { apply vle_trans with (M / 2 ^ n) (E + n); [exact H1|].
    unfold vle. rewrite Z.min_id, Z.sub_diag, Z.pow_0_r. lia. }
  assert (Hm1 : 0 < m1) by lia.
  pose proof (trunc_ge _ _ _ _ HB Hm1 H1') as H2. cbv zeta in H2.
  set (n2 := Z.max 0 (fexp64 (Zdigits2 m1 + (E + n)) - (E + n))) in *.
  assert (Hm2 : 0 < m1 / 2 ^ n2)
    by (apply (vle_positive (Zpos mB) eB _ (E + n + n2)); [lia | exact H2]).
  unfold rounded in *.
  destruct (m1 / 2 ^ n2) as [|p|p] eqn:Hp; try lia.
  destruct (Z.leb (E + n + n2) 971); [|reflexivity].
  apply valid_canonical in Hvalid. destruct Hvalid as [Hc _].
  apply SFleb_canonical; assumption.
Qed.

End Rounding.

Section RoundingUp.

(** A value below a stored number has no larger exponent. *)
Lemma magnitude_le (M E mB eB : Z) :
  0 <= M -> E <= fexp64 (Zdigits2 M + E) ->
  canonical mB eB -> vle M E mB eB ->
  fexp64 (Zdigits2 M + E) <= eB.
Proof.
  intros HM Hn HB Hle.
  destruct (canonical_facts _ _ HB) as [HeB [HmB _]].
  destruct HB as [HmB0 HcB]. rewrite fexp_eq in *.
  destruct (Z.eq_dec M 0) as [->|HM0].
  { cbn [Zdigits2] in *. lia. }
  destruct (Zdigits2_bounds M ltac:(lia)) as [Hd Hb].
  destruct (Zdigits2_bounds mB HmB0) as [HdB HbB].
  set (c := Z.min E eB).
  apply (vle_base c) in Hle; [|lia|lia].
  assert (Hlt : 2 ^ (Zdigits2 M - 1 + (E - c)) < 2 ^ (Zdigits2 mB + (eB - c))).
  { rewrite !Z.pow_add_r by lia.
    pose proof (pow2_pos (E - c) ltac:(lia)) as Ha.
    pose proof (pow2_pos (eB - c) ltac:(lia)) as Hb'.
    apply Z.le_lt_trans with (M * 2 ^ (E - c)).
    - apply Z.mul_le_mono_nonneg_r; lia.
    - apply Z.le_lt_trans with (mB * 2 ^ (eB - c)); [exact Hle|].
      apply Z.mul_lt_mono_pos_r; lia. }
  apply pow2_lt_inv in Hlt; lia.
Qed.

(** Rounding does not go above a stored number that bounds the exact
    value. *)
Lemma round_le (M E : Z) (l : location) (mB : positive) (eB : Z) :
  0 <= M -> E <= fexp64 (Zdigits2 M + E) ->
  canonical (Zpos mB) eB -> eB <= 971 ->
  (l = loc_Exact -> vle M E (Zpos mB) eB) ->
  (l <> loc_Exact -> vlt M E (Zpos mB) eB) ->
  valid_binary FloatOps.prec FloatOps.emax (round64 false M E l) = true ->
  SFleb (round64 false M E l) (S754_finite false mB eB) = true.
Proof.
  intros HM Hn HB HBmax Hexact Hinexact Hvalid.
  assert (Hle : vle M E (Zpos mB) eB).
  { destruct l as [|c]; [now apply Hexact | apply vlt_vle, Hinexact; discriminate]. }
  pose proof (magnitude_le _ _ _ _ HM Hn HB Hle) as Hmag.
  destruct (canonical_facts _ _ HB) as [HeB [HmB _]].
  destruct (round64_spec M E l HM) as [m1 [Hb [Hex Hr]]].
  cbv zeta in Hr. rewrite Hr in *. clear Hr.
  set (n := Z.max 0 (fexp64 (Zdigits2 M + E) - E)) in *.
  assert (Hn0 : E + n = fexp64 (Zdigits2 M + E)) by (unfold n; lia).
  assert (Hnn : 0 <= n) by (unfold n; lia).
  pose proof (pow2_pos n Hnn) as Hn2.
  pose proof (Z.mul_div_le M (2 ^ n) Hn2) as Hfloor.
  pose proof (Z.mod_pos_bound M (2 ^ n) Hn2) as Hmod.
  pose proof (Z.div_mod M (2 ^ n) ltac:(lia)) as Hdm.
  assert (Hq0 : 0 <= M / 2 ^ n) by (apply Z.div_pos; lia).
  (* the first step stays below the bound *)
  assert (H1 : vle m1 (E + n) (Zpos mB) eB).
  { apply (vle_base E) in Hle; [|lia|lia].
    rewrite Z.sub_diag, Z.pow_0_r, Z.mul_1_r in Hle.
    apply (vle_base (E + n)); [lia|lia|].
    rewrite Z.sub_diag, Z.pow_0_r, Z.mul_1_r.
    assert (Hsplit : 2 ^ (eB - E) = 2 ^ (eB - (E + n)) * 2 ^ n).
    { rewrite <- Z.pow_add_r by lia. f_equal. lia. }
    pose proof (pow2_pos (eB - (E + n)) ltac:(lia)) as HpB.
    destruct (Z.eq_dec (M mod 2 ^ n) 0) as [Hdiv|Hndiv].
    - destruct l as [|c].
      + rewrite Hex; [|reflexivity|].
        * rewrite Hsplit in Hle. nia.
        * exists (M / 2 ^ n). split; [exact Hq0|]. lia.
      + assert (Hlt : vlt M E (Zpos mB) eB) by (apply Hinexact; discriminate).
        apply (vlt_base E) in Hlt; [|lia|lia].
        rewrite Z.sub_diag, Z.pow_0_r, Z.mul_1_r, Hsplit in Hlt. nia.
    - rewrite Hsplit in Hle. nia. }
  set (n2 := Z.max 0 (fexp64 (Zdigits2 m1 + (E + n)) - (E + n))) in *.
  assert (Hnn2 : 0 <= n2) by (unfold n2; lia).
  pose proof (pow2_pos n2 Hnn2) as Hn22.
  assert (Hm1 : 0 <= m1) by lia.
  pose proof (Z.mul_div_le m1 (2 ^ n2) Hn22) as Hfloor2.
  assert (H2 : vle (m1 / 2 ^ n2) (E + n + n2) (Zpos mB) eB).
  { apply vle_trans with m1 (E + n); [|exact H1].
    apply (vle_base (E + n)); [lia|lia|].
    rewrite Z.sub_diag, Z.pow_0_r, Z.mul_1_r.
    replace (E + n + n2 - (E + n)) with n2 by lia. lia. }
  assert (Hq2 : 0 <= m1 / 2 ^ n2) by (apply Z.div_pos; lia).
  unfold rounded in *.
  destruct (m1 / 2 ^ n2) as [|p|p] eqn:Hp; [reflexivity| |lia].
  destruct (Z.leb (E + n + n2) 971) eqn:Hover.
  - apply valid_canonical in Hvalid. destruct Hvalid as [Hc _].
    apply SFleb_canonical; assumption.
  - exfalso. apply Z.leb_gt in Hover.
    assert (Hbig : 2 ^ 52 <= Zpos p).
    { assert (Hm1pos : 0 < m1).
      { destruct (Z.eq_dec m1 0) as [->|]; [|lia].
        rewrite Z.div_0_l in Hp by lia. discriminate. }
      destruct (Zdigits2_bounds m1 Hm1pos) as [Hd1 Hb1].
      destruct (Z.eq_dec n2 0) as [Hz|Hnz].
      - rewrite Hz, Z.pow_0_r, Z.div_1_r in Hp. rewrite <- Hp.
        rewrite Hz, Z.add_0_r in Hover.
        rewrite Hn0, fexp_eq in Hover.
        assert (HMpos : 0 < M).
        { destruct (Z.eq_dec M 0) as [->|]; [cbn [Zdigits2] in Hover|]; lia. }
        destruct (Zdigits2_bounds M HMpos) as [Hd Hbd].
        assert (Hn53 : n = Zdigits2 M - 53) by (rewrite fexp_eq in Hn0; lia).
        assert (Hdq : Zdigits2 (M / 2 ^ n) = 53).
        { rewrite Zdigits2_div by lia. lia. }
        assert (Hqpos : 0 < M / 2 ^ n).
        { apply Z.div_str_pos. split; [lia|].
          apply Z.le_trans with (2 ^ (Zdigits2 M - 1)); [|lia].
          apply pow2_le. lia. }
        destruct (Zdigits2_bounds _ Hqpos) as [_ Hqb]. rewrite Hdq in Hqb.
        change (2 ^ (53 - 1)) with (2 ^ 52) in Hqb. lia.
      - assert (Hn253 : n2 = Zdigits2 m1 - 53).
        { unfold n2 in *. rewrite fexp_eq in *. lia. }
        assert (Hdq : Zdigits2 (m1 / 2 ^ n2) = 53).
        { rewrite Zdigits2_div by lia. lia. }
        rewrite Hp in Hdq.
        destruct (Zdigits2_bounds (Zpos p) ltac:(lia)) as [_ Hqb].
        rewrite Hdq in Hqb. change (2 ^ (53 - 1)) with (2 ^ 52) in Hqb. lia. }
    apply (vle_base eB) in H2; [|lia|lia].
    rewrite Z.sub_diag, Z.pow_0_r, Z.mul_1_r in H2.
    pose proof (pow2_le 1 (E + n + n2 - eB) ltac:(lia)) as Hpw.
    change (2 ^ 1) with 2 in Hpw.
    change (2 ^ 53) with (2 * 2 ^ 52) in HmB. nia.
Qed.

End RoundingUp.

Section Alignment.

Lemma iter_xO (m d : positive) :
  Zpos (Pos.iter xO m d) = Zpos m * 2 ^ Zpos d.
Proof.
  induction d as [|d IH] using Pos.peano_ind.
  - cbn [Pos.iter]. lia.
  - rewrite Pos.iter_succ, Pos2Z.inj_xO, IH, Pos2Z.inj_succ, Z.pow_succ_r by lia.
    lia.
Qed.

(** [shl_align] lowers the exponent to [e'] when it is above, and keeps
    the value. *)
Lemma shl_align_spec (m : positive) (e e' : Z) :
  snd (shl_align m e e') = Z.min e e' /\
  Zpos (fst (shl_align m e e')) = Zpos m * 2 ^ (e - Z.min e e').
Proof.
  unfold shl_align. destruct (e' - e) as [|d|d] eqn:Hd; cbn [fst snd].
  - rewrite Z.min_l by lia. rewrite Z.sub_diag. split; lia.
  - rewrite Z.min_l by lia. rewrite Z.sub_diag. split; lia.
  - rewrite Z.min_r by lia. split; [reflexivity|].
    rewrite iter_xO. f_equal. f_equal. lia.
Qed.

(** [binary_round] on a positive mantissa: the rounding of the same value,
    at an exponent the rounding accepts. *)
Lemma binary_round_spec (m : positive) (e : Z) :
  exists (mz : positive) (ez : Z),
    binary_round FloatOps.prec FloatOps.emax false m e =
    binary_round_aux FloatOps.prec FloatOps.emax false (Zpos mz) ez loc_Exact /\
    ez <= e /\ Zpos mz = Zpos m * 2 ^ (e - ez) /\
    ez <= fexp FloatOps.prec FloatOps.emax (Zdigits2 (Zpos mz) + ez).
Proof.
  unfold binary_round.
  set (e0 := fexp FloatOps.prec FloatOps.emax (Zpos (digits2_pos m) + e)).
  destruct (shl_align_spec m e e0) as [Hs Hf].
  destruct (shl_align m e e0) as [mz ez]. cbn [fst snd] in Hs, Hf.
  exists mz, ez. split; [reflexivity|]. subst ez.
  split; [lia|]. split; [exact Hf|].
  (* the magnitude is kept, so the exponent of the format is e0 *)
  assert (Hmag : Zdigits2 (Zpos mz) + Z.min e e0 = Zpos (digits2_pos m) + e).
  { destruct (Zdigits2_bounds (Zpos m) ltac:(lia)) as [Hd Hb].
    cbn [Zdigits2] in Hd, Hb.
    pose proof (pow2_pos (e - Z.min e e0) ltac:(lia)) as Hp.
    rewrite (Zdigits2_unique (Zpos mz)
               (Zpos (digits2_pos m) + (e - Z.min e e0))); [lia|lia|].
    rewrite Hf.
    replace (Zpos (digits2_pos m) + (e - Z.min e e0) - 1)
      with (Zpos (digits2_pos m) - 1 + (e - Z.min e e0)) by lia.
    rewrite !Z.pow_add_r by lia. nia. }
  rewrite Hmag. fold e0. lia.
Qed.


End Alignment.

Section Division.

Lemma new_location_exact (n k : Z) :
  new_location n k = loc_Exact <-> k = 0.
Proof.
  unfold new_location, new_location_even, new_location_odd.
  destruct (Z.even n); destruct (Z.eqb_spec k 0) as [Hk|Hk];
    split; intro H; try reflexivity; try assumption; try discriminate;
    contradiction.
Qed.

Lemma canonical_one : canonical 4503599627370496 (-52).
Proof. split; [lia | reflexivity]. Qed.

(** The quotient of two positive stored numbers, the first not above the
    second, is not above one. *)
Lemma SFdiv_le_one (mx my : positive) (ex ey : Z) :
  canonical (Zpos mx) ex -> canonical (Zpos my) ey ->
  vle (Zpos mx) ex (Zpos my) ey ->
  let r := SFdiv FloatOps.prec FloatOps.emax
             (S754_finite false mx ex) (S754_finite false my ey) in
  valid_binary FloatOps.prec FloatOps.emax r = true ->
  SFleb r stored_one = true.
Proof.
  intros Hx Hy Hle r Hvalid. subst r. unfold SFdiv, SFdiv_core_binary in *.
  cbn [xorb Zdigits2] in *.
  set (d1 := Zpos (digits2_pos mx)) in *.
  set (d2 := Zpos (digits2_pos my)) in *.
  set (e' := Z.min (fexp FloatOps.prec FloatOps.emax (d1 + ex - (d2 + ey)))
                   (ex - ey)) in *.
  set (s := ex - ey - e') in *.
  assert (Hs : 0 <= s) by (unfold s, e'; lia).
  set (m' := match s with
             | 0 => Zpos mx
             | Zpos _ => Z.shiftl (Zpos mx) s
             | Zneg _ => 0
             end) in *.
  assert (Hm' : m' = Zpos mx * 2 ^ s).
  { unfold m'. destruct s as [|p|p] eqn:Hsp; [lia| |lia].
    rewrite Z.shiftl_mul_pow2 by lia. reflexivity. }
  pose proof (Z.div_eucl_eq m' (Zpos my) ltac:(lia)) as Heq.
  pose proof (Z.mod_pos_bound m' (Zpos my) ltac:(lia)) as Hmod.
  unfold Z.modulo in Hmod.
  destruct (Z.div_eucl m' (Zpos my)) as [q rm] eqn:Hdiv.
  pose proof (pow2_pos s Hs) as Hs2.
  assert (Hq : 0 <= q) by nia.
  destruct (Zdigits2_bounds (Zpos mx) ltac:(lia)) as [_ Hbx].
  destruct (Zdigits2_bounds (Zpos my) ltac:(lia)) as [_ Hby].
  cbn [Zdigits2] in Hbx, Hby. fold d1 in Hbx. fold d2 in Hby.
  assert (Hd1 : 0 < d1) by (unfold d1; lia).
  assert (Hd2 : 0 < d2) by (unfold d2; lia).
  (* the quotient as a value is at most one *)
  set (c := Z.min e' (-52)).
  assert (Hbase : Zpos mx * 2 ^ (ex - ey - c) <= Zpos my * 2 ^ (- c)).
  { apply (vle_base (ey + c)) in Hle; [|unfold c, s in *; lia|unfold c; lia].
    replace (ex - (ey + c)) with (ex - ey - c) in Hle by lia.
    replace (ey - (ey + c)) with (- c) in Hle by lia. exact Hle. }
  assert (Hexp : 2 ^ (ex - ey - c) = 2 ^ s * 2 ^ (e' - c)).
  { rewrite <- Z.pow_add_r by (unfold c; lia). f_equal. unfold s. lia. }
  pose proof (pow2_pos (e' - c) ltac:(unfold c; lia)) as Hpc.
  pose proof (pow2_pos (- c) ltac:(unfold c; lia)) as Hpn.
  assert (Hone : 4503599627370496 * 2 ^ (-52 - c) = 2 ^ (- c)).
  { change 4503599627370496 with (2 ^ 52).
    rewrite <- Z.pow_add_r by (unfold c; lia). f_equal. lia. }
  apply round_le; try assumption.
  - (* the exponent is one the rounding accepts *)
    rewrite fexp_eq.
    destruct (Z_le_gt_dec e' (-1074)) as [Hsmall|Hbig]; [lia|].
    assert (Hs53 : d2 - d1 + 53 <= s).
    { unfold s, e' in *. rewrite fexp_eq in *. lia. }
    assert (Hq52 : 2 ^ 52 <= q).
    { assert (Hlow : Zpos my * 2 ^ 52 <= m').
      { rewrite Hm'.
        apply Z.le_trans with (2 ^ d2 * 2 ^ 52);
          [apply Z.mul_le_mono_nonneg_r; lia|].
        apply Z.le_trans with (2 ^ (d1 - 1) * 2 ^ s);
          [|apply Z.mul_le_mono_nonneg_r; lia].
        rewrite <- !Z.pow_add_r by lia. apply pow2_le. lia. }
      nia. }
    destruct (Zdigits2_bounds q ltac:(lia)) as [Hdq Hbq].
    assert (52 < Zdigits2 q) by (apply pow2_lt_inv; lia). lia.
  - exact canonical_one.
  - lia.
  - intro Hl. apply new_location_exact in Hl. subst rm.
    apply (vle_base c); [unfold c; lia | unfold c; lia|].
    rewrite Hone. rewrite Hexp in Hbase.
    assert (q * Zpos my * 2 ^ (e' - c) <= Zpos my * 2 ^ (- c)) by nia.
    nia.
  - intro Hl. assert (Hrm : rm <> 0).
    { intro H0. apply Hl. now apply new_location_exact. }
    apply (vlt_base c); [unfold c; lia | unfold c; lia|].
    rewrite Hone. rewrite Hexp in Hbase.
    assert (q * Zpos my * 2 ^ (e' - c) < Zpos my * 2 ^ (- c)) by nia.
    nia.
Qed.

End Division.

Section SquareRoot.


End SquareRoot.

Section Binary64.

(** The values that are at least zero. *)
Lemma leb_zero_cases (x : float) :
  PrimFloat.leb 0 x = true ->
  (exists s, Prim2SF x = S754_zero s) \/
  Prim2SF x = S754_infinity false \/
  (exists m e, Prim2SF x = S754_finite false m e).
Proof.
  rewrite FloatAxioms.leb_spec. change (Prim2SF 0) with (S754_zero false).
  destruct (Prim2SF x) as [s|s| |s m e]; intro H.
  - left. now exists s.
  - destruct s; [discriminate | right; left; reflexivity].
  - discriminate.
  - destruct s; [discriminate | right; right; now exists m, e].
Qed.



Lemma round_not_negative (m e : Z) (l : location) :
  binary_round_aux FloatOps.prec FloatOps.emax false m e l = S754_nan \/
  SFleb (S754_zero false)
        (binary_round_aux FloatOps.prec FloatOps.emax false m e l) = true.
Proof.
  unfold binary_round_aux.
  destruct (shr_fexp _ _ m e l) as [mrs' e'].
  destruct (shr_fexp _ _ _ e' loc_Exact) as [mrs'' e''].
  destruct (shr_m mrs'') as [|p|p]; cbv zeta.
  - right. reflexivity.
  - destruct (Z.leb e'' (FloatOps.emax - FloatOps.prec)); right; reflexivity.
  - left. reflexivity.
Qed.









End Binary64.

Section Binary64Bounds.





End Binary64Bounds.

Section Sums.

(** The sum of two positive stored numbers: the rounding of the exact sum. *)
Lemma SFadd_spec (mx my : positive) (ex ey : Z) :
  exists (mz : positive) (ez : Z),
    SFadd FloatOps.prec FloatOps.emax
      (S754_finite false mx ex) (S754_finite false my ey) =
    round64 false (Zpos mz) ez loc_Exact /\
    ez <= ex /\ ez <= ey /\
    Zpos mz = Zpos mx * 2 ^ (ex - ez) + Zpos my * 2 ^ (ey - ez) /\
    ez <= fexp64 (Zdigits2 (Zpos mz) + ez).
Proof.
  unfold SFadd. cbn [cond_Zopp].
  set (e0 := Z.min ex ey).
  destruct (shl_align_spec mx ex e0) as [_ Hfx].
  destruct (shl_align_spec my ey e0) as [_ Hfy].
  rewrite (Z.min_r ex e0) in Hfx by (unfold e0; lia).
  rewrite (Z.min_r ey e0) in Hfy by (unfold e0; lia).
  set (sx := fst (shl_align mx ex e0)) in *.
  set (sy := fst (shl_align my ey e0)) in *.
  change (Zpos sx + Zpos sy) with (Zpos (sx + sy)).
  cbn [binary_normalize].
  destruct (binary_round_spec (sx + sy) e0) as [mz [ez [Hr [Hez [Hmz Hfe]]]]].
  exists mz, ez. split; [exact Hr|].
  split; [unfold e0 in *; lia|]. split; [unfold e0 in *; lia|].
  split; [|exact Hfe].
  rewrite Hmz, Pos2Z.inj_add, Hfx, Hfy, Z.mul_add_distr_r.
  rewrite <- !Z.mul_assoc, <- !Z.pow_add_r by (unfold e0 in *; lia).
  f_equal; f_equal; f_equal; lia.
Qed.

(** The difference of two positive stored numbers with the same exponent,
    the first above the second: the rounding of the exact difference. *)
Lemma SFsub_spec (mx my : positive) (e : Z) :
  (Zpos mx = Zpos my ->
   SFsub FloatOps.prec FloatOps.emax
     (S754_finite false mx e) (S754_finite false my e) = S754_zero false) /\
  (Zpos my < Zpos mx ->
   exists (mz : positive) (ez : Z),
     SFsub FloatOps.prec FloatOps.emax
       (S754_finite false mx e) (S754_finite false my e) =
     round64 false (Zpos mz) ez loc_Exact /\
     ez <= e /\
     Zpos mz = (Zpos mx - Zpos my) * 2 ^ (e - ez) /\
     ez <= fexp64 (Zdigits2 (Zpos mz) + ez)).
Proof.
  unfold SFsub. cbn [cond_Zopp].
  rewrite Z.min_id.
  destruct (shl_align_spec mx e e) as [_ Hfx].
  destruct (shl_align_spec my e e) as [_ Hfy].
  rewrite Z.min_id, Z.sub_diag, Z.pow_0_r, Z.mul_1_r in Hfx, Hfy.
  rewrite Hfx, Hfy.
  split.
  - intro Heq. rewrite Heq, Z.sub_diag. reflexivity.
  - intro Hlt.
    destruct (Zpos mx - Zpos my) as [|d|d] eqn:Hd; try lia.
    cbn [binary_normalize].
    destruct (binary_round_spec d e) as [mz [ez [Hr [Hez [Hmz Hfe]]]]].
    exists mz, ez. repeat split; assumption.
Qed.

End Sums.

Section UnitInterval.

(** A rounding that is not above a stored number is at least zero. *)
Lemma round_between (M E : Z) (l : location) (B : spec_float) :
  SFleb (round64 false M E l) B = true ->
  SFleb (S754_zero false) (round64 false M E l) = true.
Proof.
  intro Hle. destruct (round_not_negative M E l) as [Hn|Hn]; [|exact Hn].
  rewrite Hn in Hle. discriminate.
Qed.

(** The number 10000 as binary64 stores it. *)
Lemma canonical_ten_thousand : canonical 5497558138880000 (-39).
Proof. split; [lia | reflexivity]. Qed.

(** The product of a stored number that is not above one with a normal
    stored number is not above the latter. *)
Lemma SFmul_le (mp mk : positive) (ep ek : Z) :
  canonical (Zpos mp) ep -> canonical (Zpos mk) ek -> ek <= 971 ->
  2 ^ 52 <= Zpos mk ->
  vle (Zpos mp) ep 4503599627370496 (-52) ->
  valid64 (SFmul FloatOps.prec FloatOps.emax
             (S754_finite false mp ep) (S754_finite false mk ek)) = true ->
  SFleb (SFmul FloatOps.prec FloatOps.emax
           (S754_finite false mp ep) (S754_finite false mk ek))
        (S754_finite false mk ek) = true.
Proof.
  intros Hp Hk Hek Hnormal Hle Hvalid. unfold SFmul in *. cbn [xorb] in *.
  destruct (canonical_facts _ _ Hp) as [Hep [Hmp _]].
  destruct (canonical_facts _ _ Hk) as [Hek' _].
  apply round_le; try assumption.
  - lia.
  - rewrite fexp_eq.
    assert (HM : 2 ^ 52 <= Zpos (mp * mk)) by (rewrite Pos2Z.inj_mul; nia).
    destruct (Zdigits2_bounds (Zpos (mp * mk)) ltac:(lia)) as [Hd [_ Hup]].
    assert (52 < Zdigits2 (Zpos (mp * mk))).
    { apply pow2_lt_inv; lia. }
    lia.
  - intros _.
    apply (vle_base (-1074)) in Hle; [|lia|lia].
    apply (vle_base (ek - 1074)); [lia | lia |].
    replace (ep + ek - (ek - 1074)) with (ep - -1074) by lia.
    replace (ek - (ek - 1074)) with (-52 - -1074 + 52) by lia.
    rewrite Z.pow_add_r by lia.
    rewrite Pos2Z.inj_mul.
    pose proof (pow2_pos (ep - -1074) ltac:(lia)) as H1.
    pose proof (pow2_pos (-52 - -1074) ltac:(lia)) as H2.
    change (2 ^ 52) with 4503599627370496.
    set (a := 2 ^ (ep - -1074)) in *. set (b := 2 ^ (-52 - -1074)) in *.
    assert (Zpos mp * a * Zpos mk <= 4503599627370496 * b * Zpos mk).
    { apply Z.mul_le_mono_nonneg_r; lia. }
    lia.
  - intro Hl. contradiction.
Qed.

(** A stored number between 2^52 and 2^52 + 10000 has the exponent 0. *)
Lemma exponent_zero (ms es : Z) :
  canonical ms es ->
  vle 4503599627370496 0 ms es -> vle ms es 4503599627380496 0 ->
  es = 0 /\ 4503599627370496 <= ms <= 4503599627380496.
Proof.
  intros Hc Hlo Hhi.
  destruct (canonical_facts _ _ Hc) as [Hes [Hms Hnormal]].
  change (2 ^ 53) with 9007199254740992 in Hms.
  destruct (Z_lt_le_dec es 0) as [Hneg|Hpos].
  - exfalso.
    apply (vle_base es) in Hlo; [|lia|lia].
    rewrite Z.sub_diag, Z.pow_0_r, Z.mul_1_r in Hlo.
    assert (2 ^ 1 <= 2 ^ (0 - es)) by (apply pow2_le; lia).
    change (2 ^ 1) with 2 in *. lia.
  - apply (vle_base 0) in Hlo; [|lia|lia].
    apply (vle_base 0) in Hhi; [|lia|lia].
    rewrite !Z.sub_0_r in *. rewrite Z.pow_0_r, Z.mul_1_r in *.
    destruct (Z.eq_dec es 0) as [->|Hne].
    + rewrite Z.pow_0_r, Z.mul_1_r in *. lia.
    + exfalso.
      assert (2 ^ 1 <= 2 ^ es) by (apply pow2_le; lia).
      change (2 ^ 1) with 2 in *.
      specialize (Hnormal ltac:(lia)). change (2 ^ 52) with 4503599627370496 in *.
      nia.
Qed.

End UnitInterval.

Section Reported.

(** The value [N * 2^k] at the exponent [-k] is [N]. *)
Lemma vle_shift_r (m e N k : Z) :
  0 <= k -> (vle m e (N * 2 ^ k) (- k) <-> vle m e N 0).
Proof.
  intro Hk.
  rewrite (vle_base (Z.min e (- k)) m e (N * 2 ^ k) (- k)) by lia.
  rewrite (vle_base (Z.min e (- k)) m e N 0) by lia.
  rewrite <- Z.mul_assoc, <- Z.pow_add_r by lia.
  replace (k + (- k - Z.min e (- k))) with (0 - Z.min e (- k)) by lia.
  reflexivity.
Qed.

(** A number between zero and a positive stored number. *)
Lemma between_cases (x b : float) (mB : positive) (eB : Z) :
  Prim2SF b = S754_finite false mB eB ->
  PrimFloat.leb 0 x = true -> PrimFloat.leb x b = true ->
  (exists s, Prim2SF x = S754_zero s) \/
  (exists m e, Prim2SF x = S754_finite false m e /\
               canonical (Zpos m) e /\ e <= 971 /\
               vle (Zpos m) e (Zpos mB) eB).
Proof.
  intros Hb H0 Hle.
  pose proof (FloatAxioms.Prim2SF_valid x) as Hv.
  pose proof (FloatAxioms.Prim2SF_valid b) as Hvb.
  rewrite FloatAxioms.leb_spec in Hle. rewrite Hb in *.
  apply leb_zero_cases in H0.
  destruct H0 as [[s H0] | [H0 | [m [e H0]]]]; rewrite H0 in *.
  - left. now exists s.
  - discriminate.
  - right. exists m, e.
    apply valid_canonical in Hv. apply valid_canonical in Hvb.
    destruct Hv as [Hc He]. destruct Hvb as [Hcb _].
    split; [reflexivity|]. split; [exact Hc|]. split; [exact He|].
    apply SFleb_canonical; assumption.
Qed.

(** p * 10000 for a p between 0 and 1. *)
Lemma mul_unit_bounds (p : float) :
  PrimFloat.leb 0 p = true -> PrimFloat.leb p 1 = true ->
  PrimFloat.leb 0 (PrimFloat.mul p 10000) = true /\
  PrimFloat.leb (PrimFloat.mul p 10000) 10000 = true.
Proof.
  intros H0 H1.
  pose proof (FloatAxioms.Prim2SF_valid (PrimFloat.mul p 10000)) as Hv.
  rewrite !FloatAxioms.leb_spec. rewrite FloatAxioms.mul_spec in *.
  unfold FloatAxioms.SF64mul in *.
  change (Prim2SF 0) with (S754_zero false).
  change (Prim2SF 10000) with (S754_finite false 5497558138880000 (-39)) in *.
  destruct (between_cases p 1 4503599627370496 (-52) eq_refl H0 H1)
    as [[s Hp] | [m [e [Hp [Hc [He Hle]]]]]]; rewrite Hp in *.
  - destruct s; split; reflexivity.
  - assert (Hup : SFleb (SFmul FloatOps.prec FloatOps.emax
                           (S754_finite false m e)
                           (S754_finite false 5497558138880000 (-39)))
                        (S754_finite false 5497558138880000 (-39)) = true).
    { apply SFmul_le; try assumption.
      - exact canonical_ten_thousand.
      - lia.
      - change (2 ^ 52) with 4503599627370496. lia. }
    split; [|exact Hup].
    unfold SFmul in *. cbn [xorb] in *. eapply round_between. exact Hup.
Qed.

(** r / 10000 for an r between 0 and 10000. *)
Lemma div_unit_bounds (r : float) :
  PrimFloat.leb 0 r = true -> PrimFloat.leb r 10000 = true ->
  PrimFloat.leb 0 (PrimFloat.div r 10000) = true /\
  PrimFloat.leb (PrimFloat.div r 10000) 1 = true.
Proof.
  intros H0 H1.
  pose proof (FloatAxioms.Prim2SF_valid (PrimFloat.div r 10000)) as Hv.
  rewrite !FloatAxioms.leb_spec. rewrite FloatAxioms.div_spec in *.
  unfold FloatAxioms.SF64div in *.
  change (Prim2SF 0) with (S754_zero false).
  change (Prim2SF 1) with stored_one.
  change (Prim2SF 10000) with (S754_finite false 5497558138880000 (-39)) in *.
  destruct (between_cases r 10000 5497558138880000 (-39) eq_refl H0 H1)
    as [[s Hr] | [m [e [Hr [Hc [He Hle]]]]]]; rewrite Hr in *.
  - destruct s; split; reflexivity.
  - assert (Hup : SFleb (SFdiv FloatOps.prec FloatOps.emax
                           (S754_finite false m e)
                           (S754_finite false 5497558138880000 (-39)))
                        stored_one = true).
    { apply SFdiv_le_one; try assumption. exact canonical_ten_thousand. }
    split; [|exact Hup].
    unfold SFdiv in *.
    destruct (SFdiv_core_binary _ _ _ _ _ _) as [[mz ez] lz].
    cbn [xorb] in *. eapply round_between. exact Hup.
Qed.

Lemma abs_positive (x : float) (m : positive) (e : Z) :
  Prim2SF x = S754_finite false m e -> PrimFloat.abs x = x.
Proof.
  intro Hx. apply FloatAxioms.Prim2SF_inj.
  rewrite FloatAxioms.abs_spec, Hx. reflexivity.
Qed.

Lemma get_sign_positive (x : float) (m : positive) (e : Z) :
  Prim2SF x = S754_finite false m e -> PrimFloat.get_sign x = false.
Proof.
  intro Hx. unfold PrimFloat.get_sign, PrimFloat.is_zero.
  rewrite FloatAxioms.eqb_spec, Hx.
  change (Prim2SF PrimFloat.zero) with (S754_zero false). cbn.
  rewrite FloatAxioms.ltb_spec, Hx. reflexivity.
Qed.

End Reported.

Section NearestInteger.

(** m + 2^52 for a stored m between 0 and 10000: a stored number with the
    exponent 0, between 2^52 and 2^52 + 10000. *)
Lemma add_two52 (mm : positive) (em : Z) :
  vle (Zpos mm) em 10000 0 ->
  valid64 (SFadd FloatOps.prec FloatOps.emax (S754_finite false mm em)
             (S754_finite false 4503599627370496 0)) = true ->
  exists ms : positive,
    SFadd FloatOps.prec FloatOps.emax (S754_finite false mm em)
      (S754_finite false 4503599627370496 0) = S754_finite false ms 0 /\
    4503599627370496 <= Zpos ms <= 4503599627380496.
Proof.
  intros Hle Hvalid.
  destruct (SFadd_spec mm 4503599627370496 em 0)
    as [mz [ez [Hr [Hez1 [Hez2 [Hmz Hfe]]]]]].
  rewrite Hr in *.
  apply (vle_base ez) in Hle; [|lia|lia].
  pose proof (pow2_pos (em - ez) ltac:(lia)) as Hp1.
  pose proof (pow2_pos (0 - ez) ltac:(lia)) as Hp2.
  assert (Hlo : SFleb (S754_finite false 4503599627370496 0)
                      (round64 false (Zpos mz) ez loc_Exact) = true).
  { apply round_ge; [split; [lia | reflexivity] | | exact Hvalid].
    apply (vle_base ez); [lia | lia |].
    rewrite Z.sub_diag, Z.pow_0_r, Z.mul_1_r, Hmz. nia. }
  assert (Hhi : SFleb (round64 false (Zpos mz) ez loc_Exact)
                      (S754_finite false 4503599627380496 0) = true).
  { apply round_le; try assumption.
    - lia.
    - split; [lia | reflexivity].
    - lia.
    - intros _. apply (vle_base ez); [lia | lia |].
      rewrite Z.sub_diag, Z.pow_0_r, Z.mul_1_r, Hmz. lia.
    - intro Hl. contradiction. }
  destruct (round64 false (Zpos mz) ez loc_Exact) as [sg|sg| |sg ms es];
    try discriminate.
  - destruct sg; discriminate.
  - destruct sg; [discriminate|].
    apply valid_canonical in Hvalid. destruct Hvalid as [Hc _].
    apply SFleb_canonical in Hlo; [|split; [lia | reflexivity] | exact Hc].
    apply SFleb_canonical in Hhi; [|exact Hc | split; [lia | reflexivity]].
    destruct (exponent_zero _ _ Hc Hlo Hhi) as [-> Hms].
    exists ms. split; [reflexivity | exact Hms].
Qed.

(** s - 2^52 for a stored s of exponent 0 between 2^52 and 2^52 + 10000:
    between 0 and 10000. *)
Lemma sub_two52 (ms : positive) :
  4503599627370496 <= Zpos ms <= 4503599627380496 ->
  valid64 (SFsub FloatOps.prec FloatOps.emax (S754_finite false ms 0)
             (S754_finite false 4503599627370496 0)) = true ->
  SFleb (S754_zero false)
        (SFsub FloatOps.prec FloatOps.emax (S754_finite false ms 0)
           (S754_finite false 4503599627370496 0)) = true /\
  SFleb (SFsub FloatOps.prec FloatOps.emax (S754_finite false ms 0)
           (S754_finite false 4503599627370496 0))
        (S754_finite false 5497558138880000 (-39)) = true.
Proof.
  intros Hms Hvalid.
  destruct (SFsub_spec ms 4503599627370496 0) as [Heq Hgt].
  destruct (Z.eq_dec (Zpos ms) 4503599627370496) as [He|Hne].
  - rewrite (Heq He). split; reflexivity.
  - destruct Hgt as [mz [ez [Hr [Hez [Hmz Hfe]]]]]; [lia|].
    rewrite Hr in *.
    pose proof (pow2_pos (0 - ez) ltac:(lia)) as Hp.
    assert (Hup : SFleb (round64 false (Zpos mz) ez loc_Exact)
                        (S754_finite false 5497558138880000 (-39)) = true).
    { apply round_le; try assumption.
      - lia.
      - exact canonical_ten_thousand.
      - lia.
      - intros _.
        change 5497558138880000 with (10000 * 2 ^ 39).
        change (-39) with (- (39)).
        apply vle_shift_r; [lia|].
        apply (vle_base ez); [lia | lia |].
        rewrite Z.sub_diag, Z.pow_0_r, Z.mul_1_r, Hmz. nia.
      - intro Hl. contradiction. }
    split; [eapply round_between; exact Hup | exact Hup].
Qed.

(** [rint] keeps a number between 0 and 10000 there. *)
Lemma rint_bounds (m : float) :
  PrimFloat.leb 0 m = true -> PrimFloat.leb m 10000 = true ->
  PrimFloat.leb 0 (rint m) = true /\ PrimFloat.leb (rint m) 10000 = true.
Proof.
  intros H0 H1. unfold rint.
  destruct (PrimFloat.ltb (PrimFloat.abs m) 0x1p52%float);
    [|split; assumption].
  destruct (between_cases m 10000 5497558138880000 (-39) eq_refl H0 H1)
    as [[s Hm] | [mm [em [Hm [Hc [He Hle]]]]]].
  - rewrite <- (FloatAxioms.SF2Prim_Prim2SF m), Hm.
    destruct s; vm_compute; split; reflexivity.
  - rewrite (abs_positive m mm em Hm), (get_sign_positive m mm em Hm).
    pose proof (FloatAxioms.Prim2SF_valid (PrimFloat.add m 0x1p52)) as Hvs.
    pose proof (FloatAxioms.Prim2SF_valid
                  (PrimFloat.sub (PrimFloat.add m 0x1p52) 0x1p52)) as Hvr.
    rewrite !FloatAxioms.leb_spec.
    rewrite FloatAxioms.sub_spec in *. unfold FloatAxioms.SF64sub in *.
    rewrite FloatAxioms.add_spec in *. unfold FloatAxioms.SF64add in *.
    rewrite Hm in *.
    change (Prim2SF 0x1p52) with (S754_finite false 4503599627370496 0) in *.
    change (Prim2SF 0) with (S754_zero false).
    change (Prim2SF 10000) with (S754_finite false 5497558138880000 (-39)).
    change 5497558138880000 with (10000 * 2 ^ 39) in Hle.
    change (-39) with (- (39)) in Hle.
    apply vle_shift_r in Hle; [|lia].
    destruct (add_two52 mm em Hle Hvs) as [ms [Hs Hms]].
    rewrite Hs in *.
    apply sub_two52; assumption.
Qed.

(** [round(p, 4)] of a p between 0 and 1 is between 0 and 1. *)
Lemma round_float64_unit (p : float) :
  PrimFloat.leb 0 p = true -> PrimFloat.leb p 1 = true ->
  PrimFloat.leb 0 (PrimFloat.div (rint (PrimFloat.mul p 10000)) 10000) = true /\
  PrimFloat.leb (PrimFloat.div (rint (PrimFloat.mul p 10000)) 10000) 1 = true.
Proof.
  intros H0 H1.
  destruct (mul_unit_bounds p H0 H1) as [Hm0 Hm1].
  destruct (rint_bounds _ Hm0 Hm1) as [Hr0 Hr1].
  apply div_unit_bounds; assumption.
Qed.

End NearestInteger.

End Float64.

(* ================================================================== *)
(** * Rounding of exact rationals *)

Section RoundingFacts.

Local Open Scope Q_scope.



End RoundingFacts.

(* ================================================================== *)
(** * Loops that may raise *)

Section LoopFacts.

Context {A B : Type}.
Variable f : A -> pyresult B.

(** The loop stops at the first exception: no list is built. *)
Lemma mapM_raises (l : list A) (a : A) :
  In a l -> raises (f a) -> raises (mapM f l).
Proof.
  induction l as [|x t IH]; intros Hin Hr; [destruct Hin|].
  cbn [mapM]. destruct (f x) as [b|e] eqn:Hx; cbn [bind].
  - destruct Hin as [-> | Hin].
    + destruct Hr as [e He]. congruence.
    + destruct (IH Hin Hr) as [e He]. rewrite He. now exists e.
  - now exists e.
Qed.

(** A loop that completes has run the body once per element, in order. *)
Lemma mapM_Ok (l : list A) (out : list B) :
  mapM f l = Ok out -> Forall2 (fun a b => f a = Ok b) l out.
Proof.
  revert out. induction l as [|x t IH]; intros out Hrun; cbn [mapM] in Hrun.
  - injection Hrun as <-. constructor.
  - destruct (f x) as [b|e] eqn:Hx; cbn [bind] in Hrun; [|discriminate].
    destruct (mapM f t) as [bs|e] eqn:Ht; cbn [bind] in Hrun; [|discriminate].
    injection Hrun as <-. constructor; [exact Hx | now apply IH].
Qed.

Lemma mapM_complete (l : list A) :
  (forall a, In a l -> exists b, f a = Ok b) -> exists out, mapM f l = Ok out.
Proof.
  induction l as [|x t IH]; intro Hall; [now exists []|].
  destruct (Hall x (or_introl eq_refl)) as [b Hb].
  destruct IH as [bs Hbs]; [intros a Ha; apply Hall; now right|].
  exists (b :: bs). cbn [mapM]. rewrite Hb. cbn [bind]. rewrite Hbs. reflexivity.
Qed.



(** The loop raises exactly when the body raises on some element. *)
Lemma mapM_raises_iff (l : list A) :
  raises (mapM f l) <-> exists a, In a l /\ raises (f a).
Proof.
  split.
  - induction l as [|x t IH]; cbn [mapM].
    + intros [e He]. discriminate.
    + destruct (f x) as [b|e] eqn:Hx; cbn [bind].
      * destruct (mapM f t) as [bs|e] eqn:Ht; cbn [bind].
        -- intros [e He]. discriminate.
        -- intros _. destruct IH as [a [Ha Hr]]; [now exists e|].
           exists a. split; [now right | exact Hr].
      * intros _. exists x. split; [now left|]. rewrite Hx. now exists e.
  - intros [a [Ha Hr]]. now apply mapM_raises with a.
Qed.

(** The exception of the loop is that of the first element on which the
    body raises. *)
Lemma mapM_first_failure (before after : list A) (a : A) (e : exn) :
  (forall b, In b before -> exists y, f b = Ok y) ->
  f a = Raise e ->
  mapM f (before ++ a :: after) = Raise e.
Proof.
  intros Hbefore Ha. induction before as [|b t IH]; cbn [app mapM].
  - now rewrite Ha.
  - destruct (Hbefore b (or_introl eq_refl)) as [y Hy]. rewrite Hy. cbn [bind].
    rewrite IH; [reflexivity|]. intros c Hc. apply Hbefore. now right.
Qed.

End LoopFacts.

(* ================================================================== *)
(** * Properties of [get_quant_p_values] *)

Section QuantFacts.

Context {F : Type} `{Arith F}.
Variable shapiro : list F -> pyresult (Q * Q).
Variable pearsonr : list F -> list F -> pyresult (Q * Q).
Variable spearmanr : list F -> list F -> pyresult (Q * Q).

Lemma float_column_Ok (df : DataFrame F) (c : string) (xs : list F) :
  float_column df c = Ok xs -> xs = cells_of df c.
Proof.
  unfold float_column. destruct (in_columns c (float_columns df)).
  - now intros [= <-].
  - destruct (in_columns c (object_columns df)); discriminate.
Qed.



(** A row of [get_quant_p_values], from the test that was chosen. *)
Lemma get_quant_p_values_body_Ok (df : DataFrame F) (target factor : string)
    (row : Correlation.row) :
  (xs <- float_column df factor ;;
   normal_factor <- _is_normal shapiro xs (5 # 100) ;;
   both <- (if normal_factor : bool then
              ys <- float_column df target ;; _is_normal shapiro ys (5 # 100)
            else Ok false) ;;
   ys <- float_column df target ;;
   rp_method <- (if both : bool then
                   rp <- pearsonr xs ys ;; Ok (rp, "Pearson")
                 else
                   rp <- spearmanr xs ys ;; Ok (rp, "Spearman")) ;;
   let r := fst (fst rp_method) in
   let p := snd (fst rp_method) in
   let conclusion :=
     if Qle_bool p (5 # 100) then "Есть статистически значимая разница."
     else "Нет статистически значимой разницы." in
   Ok {| Correlation.column := factor;
         Correlation.p_value := round4 p;
         Correlation.correlation := round4 r;
         Correlation.method := snd rp_method;
         Correlation.conclusion := conclusion |}) = Ok row ->
  exists rp method,
    (method = "Pearson" /\
       pearsonr (cells_of df factor) (cells_of df target) = Ok rp \/
     method = "Spearman" /\
       spearmanr (cells_of df factor) (cells_of df target) = Ok rp) /\
    row = {| Correlation.column := factor;
             Correlation.p_value := round4 (snd rp);
             Correlation.correlation := round4 (fst rp);
             Correlation.method := method;
             Correlation.conclusion :=
               if Qle_bool (snd rp) (5 # 100)
               then "Есть статистически значимая разница."
               else "Нет статистически значимой разницы." |}.
Proof.
  intro Hrow.
  destruct (float_column df factor) as [xs|e] eqn:Hxs; cbn [bind] in Hrow;
    [|discriminate].
  apply float_column_Ok in Hxs. subst xs.
  destruct (_is_normal shapiro (cells_of df factor) (5 # 100)) as [nf|e];
    cbn [bind] in Hrow; [|discriminate].
  assert (Hrest : forall both : bool,
    (ys <- float_column df target ;;
     rp_method <- (if both then
                     rp <- pearsonr (cells_of df factor) ys ;; Ok (rp, "Pearson")
                   else
                     rp <- spearmanr (cells_of df factor) ys ;;
                     Ok (rp, "Spearman")) ;;
     Ok {| Correlation.column := factor;
           Correlation.p_value := round4 (snd (fst rp_method));
           Correlation.correlation := round4 (fst (fst rp_method));
           Correlation.method := snd rp_method;
           Correlation.conclusion :=
             if Qle_bool (snd (fst rp_method)) (5 # 100)
             then "Есть статистически значимая разница."
             else "Нет статистически значимой разницы." |}) = Ok row ->
    exists rp method,
      (method = "Pearson" /\
         pearsonr (cells_of df factor) (cells_of df target) = Ok rp \/
       method = "Spearman" /\
         spearmanr (cells_of df factor) (cells_of df target) = Ok rp) /\
      row = {| Correlation.column := factor;
               Correlation.p_value := round4 (snd rp);
               Correlation.correlation := round4 (fst rp);
               Correlation.method := method;
               Correlation.conclusion :=
                 if Qle_bool (snd rp) (5 # 100)
                 then "Есть статистически значимая разница."
                 else "Нет статистически значимой разницы." |}).
  { intros both Hb.
    destruct (float_column df target) as [ys|e] eqn:Hys; cbn [bind] in Hb;
      [|discriminate].
    apply float_column_Ok in Hys. subst ys.
    destruct both.
    - destruct (pearsonr (cells_of df factor) (cells_of df target))
        as [rp|e] eqn:Hrp; cbn [bind] in Hb; [|discriminate].
      injection Hb as <-. exists rp, "Pearson". split; [left|]; auto.
    - destruct (spearmanr (cells_of df factor) (cells_of df target))
        as [rp|e] eqn:Hrp; cbn [bind] in Hb; [|discriminate].
      injection Hb as <-. exists rp, "Spearman". split; [right|]; auto. }
  destruct nf.
  - destruct (float_column df target) as [ys|e]; cbn [bind] in Hrow;
      [|discriminate].
    destruct (_is_normal shapiro ys (5 # 100)) as [nt|e]; cbn [bind] in Hrow;
      [|discriminate].
    exact (Hrest nt Hrow).
  - cbn [bind] in Hrow. exact (Hrest false Hrow).
Qed.

Lemma drop_label_Ok (target : string) (columns fs : list string) :
  drop_label target columns = Ok fs ->
  In target columns /\
  fs = filter (fun c => negb (String.eqb c target)) columns.
Proof.
  unfold drop_label, in_columns.
  destruct (in_dec string_dec target columns) as [Hin|Hn]; [|discriminate].
  intros [= <-]. auto.
Qed.

(** X9.  Without a list of factors, [get_quant_p_values] examines the
    float64 columns other than the target, in table order, so the target is
    never correlated with itself; it raises [KeyError] at once when the
    target is not a float64 column of the table. *)
Theorem get_quant_p_values_default_factors (df : DataFrame F) (target : string) :
  (~ In target (float_columns df) ->
   get_quant_p_values shapiro pearsonr spearmanr df target None =
     Raise KeyError) /\
  (forall out,
     get_quant_p_values shapiro pearsonr spearmanr df target None = Ok out ->
     In target (float_columns df) /\
     map Correlation.column out =
       filter (fun c => negb (String.eqb c target)) (float_columns df) /\
     ~ In target (map Correlation.column out)).
Proof.
  split.
  - intro Hn. unfold get_quant_p_values, drop_label, in_columns.
    destruct (in_dec string_dec target (float_columns df)); [contradiction|].
    reflexivity.
  - intros out Hrun. unfold get_quant_p_values in Hrun.
    destruct (drop_label target (float_columns df)) as [fs|e] eqn:Hfs;
      cbn [bind] in Hrun; [|discriminate].
    apply drop_label_Ok in Hfs. destruct Hfs as [Hin ->].
    assert (Hcols : map Correlation.column out =
                    filter (fun c => negb (String.eqb c target))
                           (float_columns df)).
    { apply mapM_Ok in Hrun.
      induction Hrun as [|c row l out' Hrow _ IH]; [reflexivity|].
      cbn [map]. rewrite IH. f_equal.
      apply get_quant_p_values_body_Ok in Hrow.
      destruct Hrow as [rp [method [_ ->]]]. reflexivity. }
    split; [exact Hin|]. split; [exact Hcols|].
    rewrite Hcols. intro Hmem. apply filter_In in Hmem.
    destruct Hmem as [_ Hneq]. rewrite String.eqb_refl in Hneq. discriminate.
Qed.


End QuantFacts.




(* ================================================================== *)
(** * Properties of [check_normality] *)

(** A float64 value that [is_nan] accepts is the NaN. *)
Lemma binary64_nan_eq (x : float) :
  PrimFloat.is_nan x = true -> x = PrimFloat.nan.
Proof.
  intro Hx. apply binary64_is_nan in Hx.
  apply FloatAxioms.Prim2SF_inj. now rewrite Hx.
Qed.

(** No number is at most NaN. *)
Lemma binary64_leb_nan (x : float) : PrimFloat.leb x PrimFloat.nan = false.
Proof.
  destruct (PrimFloat.leb x PrimFloat.nan) eqn:Hle; [|reflexivity].
  destruct (@fle_nan float binary64 binary64_nan_order x PrimFloat.nan Hle)
    as [_ Hn].
  discriminate Hn.
Qed.

(** Rounding a p-value of 0.12345 to four decimals: the scaled value is
    1234.5, which goes to the even integer 1234. *)
Example round_float64_half_way :
  round_float64 0.12345 4 = 0.1234%float /\
  round_float64 0.5 4 = 0.5%float /\
  round_float64 PrimFloat.nan 4 = PrimFloat.nan.
Proof. repeat split; vm_compute; reflexivity. Qed.

Section NormalityFacts.

Context {F : Type} `{Arith F}.
Variable shapiro : series F -> pyresult (float * float).

Lemma getitem_float (df : DataFrame F) (c : string) :
  In c (float_columns df) ->
  getitem df c = Ok (SFloat (cells_of df c)).
Proof.
  intro Hin. unfold getitem. now rewrite (in_columns_true _ _ Hin).
Qed.

(** C6, as the code has it.  Let every examined column be a float64 column
    of the table on which the normality test returns a result.  Then
    [check_normality] returns one row per examined column, in the order of
    the columns.  The row of a column goes back to the p-value p of the
    test on the values of the column that are not missing: its label is
    "Нормальное" exactly when alpha <= p holds and "Асимметричное" exactly
    when it does not; the p-value it reports is p multiplied by 10000,
    brought to the nearest integer and divided by 10000; when p is NaN the
    row reports NaN under the label "Асимметричное"; and when p lies
    between 0 and 1, so does the p-value the row reports. *)
Theorem check_normality_rows (df : DataFrame F)
    (columns : option (list string)) (alpha : float) :
  (forall c, In c (examined df columns) ->
     In c (float_columns df) /\
     exists sp,
       shapiro (SFloat (filter (fun x => negb (is_nan x)) (cells_of df c))) =
       Ok sp) ->
  exists out,
    check_normality shapiro df columns alpha = Ok out /\
    map Normality.column out = examined df columns /\
    Forall (fun row =>
              exists sp,
                shapiro (SFloat (filter (fun x => negb (is_nan x))
                                        (cells_of df (Normality.column row)))) =
                Ok sp /\
                Normality.p_value row =
                  PrimFloat.div (rint (PrimFloat.mul (snd sp) 10000)) 10000 /\
                (Normality.distribution row = "Нормальное" <->
                 PrimFloat.leb alpha (snd sp) = true) /\
                (Normality.distribution row = "Асимметричное" <->
                 PrimFloat.leb alpha (snd sp) = false) /\
                (PrimFloat.is_nan (snd sp) = true ->
                 Normality.p_value row = PrimFloat.nan /\
                 Normality.distribution row = "Асимметричное") /\
                (PrimFloat.leb 0 (snd sp) = true ->
                 PrimFloat.leb (snd sp) 1 = true ->
                 PrimFloat.leb 0 (Normality.p_value row) = true /\
                 PrimFloat.leb (Normality.p_value row) 1 = true)) out.
Proof.
  intros Hcols. unfold check_normality. fold (examined df columns).
  set (body := fun col : string => _).
  destruct (mapM_complete body (examined df columns)) as [out Hout].
  { intros c Hc. destruct (Hcols c Hc) as [Hin [sp Hsp]].
    unfold body. rewrite (getitem_float _ _ Hin). cbn [bind series_dropna].
    unfold notna. rewrite Hsp. cbn [bind]. eexists. reflexivity. }
  exists out. split; [exact Hout|].
  assert (Hin : Forall (fun c => In c (float_columns df)) (examined df columns)).
  { apply Forall_forall. intros c Hc. now apply Hcols. }
  apply mapM_Ok in Hout. clear Hcols. revert Hin.
  induction Hout as [|c row l out' Hrow _ IH]; intro Hin.
  - split; constructor.
  - inversion Hin as [|c0 l0 Hc Hl]; subst.
    destruct (IH Hl) as [IHcol IHall]. clear IH.
    unfold body in Hrow. rewrite (getitem_float _ _ Hc) in Hrow.
    cbn [bind series_dropna] in Hrow. unfold notna in Hrow.
    destruct (shapiro _) as [sp|e] eqn:Hsp; cbn [bind] in Hrow; [|discriminate].
    injection Hrow as <-.
    split; [cbn [map Normality.column]; now rewrite IHcol|].
    constructor; [|exact IHall].
    cbn [Normality.column Normality.p_value Normality.distribution].
    exists sp. split; [exact Hsp|]. split; [reflexivity|].
    destruct (PrimFloat.leb alpha (snd sp)) eqn:Hle.
    + split; [tauto|]. split; [split; discriminate|]. split.
      * intro Hn. apply binary64_nan_eq in Hn.
        rewrite Hn, binary64_leb_nan in Hle. discriminate.
      * intros H0 H1. apply round_float64_unit; assumption.
    + split; [split; discriminate|]. split; [tauto|]. split.
      * intro Hn. apply binary64_nan_eq in Hn. rewrite Hn.
        split; [vm_compute|]; reflexivity.
      * intros H0 H1. apply round_float64_unit; assumption.
Qed.

(** The test on a column, as [check_normality] runs it. *)
Lemma check_normality_body (df : DataFrame F) (columns : option (list string))
    (alpha : float) :
  check_normality shapiro df columns alpha =
  mapM (fun col =>
          sp <- tested shapiro df col ;;
          Ok {| Normality.column := col;
                Normality.p_value := round_float64 (snd sp) 4;
                Normality.distribution :=
                  if PrimFloat.leb alpha (snd sp) then "Нормальное"
                  else "Асимметричное" |})
       (examined df columns).
Proof.
  unfold check_normality. fold (examined df columns).
  induction (examined df columns) as [|c t IH]; [reflexivity|].
  cbn [mapM]. rewrite IH. unfold tested.
  destruct (getitem df c) as [s|e]; cbn [bind]; [|reflexivity].
  destruct (shapiro (series_dropna s)) as [sp|e]; reflexivity.
Qed.

(** C9, as the code has it.  [check_normality] has no check of its own on
    the number of values: it fails exactly when the lookup of an examined
    column or the normality test on it fails; the exception is the one of
    the first such column, and nothing is returned of the rows of the
    columns before it.  Whenever it returns a table, the table has a row
    for every examined column. *)
Theorem check_normality_failure (df : DataFrame F)
    (columns : option (list string)) (alpha : float) :
  (raises (check_normality shapiro df columns alpha) <->
   exists c, In c (examined df columns) /\ raises (tested shapiro df c)) /\
  (forall before c after e,
     examined df columns = before ++ c :: after ->
     (forall b, In b before -> exists sp, tested shapiro df b = Ok sp) ->
     tested shapiro df c = Raise e ->
     check_normality shapiro df columns alpha = Raise e) /\
  (forall out,
     check_normality shapiro df columns alpha = Ok out ->
     map Normality.column out = examined df columns).
Proof.
  rewrite check_normality_body. set (body := fun col : string => _).
  assert (Hbody : forall c, raises (body c) <-> raises (tested shapiro df c)).
  { intro c. unfold body.
    destruct (tested shapiro df c) as [sp|e]; cbn [bind].
    - split; intros [e He]; discriminate.
    - split; intros _; now exists e. }
  split; [|split].
  - rewrite mapM_raises_iff. split; intros [c [Hc Hr]]; exists c;
      (split; [exact Hc | now apply Hbody]).
  - intros before c after e -> Hbefore Hc.
    apply mapM_first_failure.
    + intros b Hb. destruct (Hbefore b Hb) as [sp Hsp].
      unfold body. rewrite Hsp. cbn [bind]. eexists. reflexivity.
    + unfold body. now rewrite Hc.
  - intros out Hout. apply mapM_Ok in Hout.
    induction Hout as [|c row l out' Hrow _ IH]; [reflexivity|].
    cbn [map]. rewrite IH. f_equal. unfold body in Hrow.
    destruct (tested shapiro df c) as [sp|e]; cbn [bind] in Hrow; [|discriminate].
    now injection Hrow as <-.
Qed.

End NormalityFacts.

(** C6 on the scores, all float64 columns examined. *)
Lemma check_normality_rows_witness :
  exists out,
    check_normality Samples.shapiro_small Samples.scores None 0.05%float = Ok out /\
    map Normality.column out = ["score"].
Proof.
  destruct (check_normality_rows Samples.shapiro_small Samples.scores None
              0.05%float)
    as [out [Hrun [Hcols _]]].
  - simpl. intros c [<- | []]. split; [now left|].
    eexists. vm_compute. reflexivity.
  - exists out. split; [exact Hrun | exact Hcols].
Defined.

(** What is reported on the scores: p = 0.12345 is not below alpha = 0.05
    and is reported as 0.1234. *)
Example check_normality_scores :
  check_normality Samples.shapiro_small Samples.scores None 0.05%float =
  Ok [{| Normality.column := "score";
         Normality.p_value := 0.1234%float;
         Normality.distribution := "Нормальное" |}].
Proof. vm_compute. reflexivity. Qed.

(** C6 as stated fails on a column of two values, where the test answers
    NaN: the p-value reported is NaN, which is not between 0 and 1. *)
Lemma check_normality_reports_nan :
  check_normality Samples.shapiro_small Samples.two_values (Some ["score"])
                  0.05%float =
  Ok [{| Normality.column := "score";
         Normality.p_value := PrimFloat.nan;
         Normality.distribution := "Асимметричное" |}] /\
  PrimFloat.leb 0 PrimFloat.nan = false /\
  PrimFloat.leb PrimFloat.nan 1 = false.
Proof. repeat split; vm_compute; reflexivity. Qed.

(** C9 as stated fails on the table whose column holds the two values 1
    and 1: the test answers NaN and does not raise, and a table is
    returned. *)
Lemma check_normality_short_column :
  List.length (filter (fun x => negb (PrimFloat.is_nan x))
                      (cells_of Samples.with_missing_group "score")) = 2 /\
  check_normality Samples.shapiro_small Samples.with_missing_group
                  (Some ["score"]) 0.05%float =
  Ok [{| Normality.column := "score";
         Normality.p_value := PrimFloat.nan;
         Normality.distribution := "Асимметричное" |}].
Proof. split; vm_compute; reflexivity. Qed.

(** An object column is handed to the test, which raises on it; the rows
    of the columns before are lost with it. *)
Example check_normality_object_column :
  check_normality Samples.shapiro_small Samples.scores (Some ["score"; "g"])
                  0.05%float =
  Raise ValueError /\
  check_normality Samples.shapiro_small Samples.scores (Some ["score"; "area"])
                  0.05%float =
  Raise KeyError.
Proof. split; vm_compute; reflexivity. Qed.

(* ================================================================== *)
(** * Properties of [test_mannwhitney] *)

Section MannWhitneyFacts.

Context {F : Type} `{Arith F}.
Variable mannwhitneyu : list (string * pyvalue F) -> pyresult (float * float).

Lemma grouped_lists_float (df : DataFrame F) (target factor : string)
    (key_of : Row F -> option (key F)) :
  In target (float_columns df) ->
  group_key df factor = Ok key_of ->
  grouped_lists df target factor =
  Ok (map (fun g => VList (map (fun r => num r target) (snd g)))
          (groupby key_eqb key_leb key_of (rows df))).
Proof.
  intros Ht Hk. unfold grouped_lists. rewrite Hk. cbn [bind].
  now rewrite (in_columns_true _ _ Ht).
Qed.

(** C5, as the code has it.  Let the target be a float64 column and the
    factor a column of the table, with a number of groups other than two,
    and let [mannwhitneyu] make the checks of SciPy before it computes.
    With three groups of which the first or the second holds a missing
    target value, the routine takes the third group for its option
    [use_continuity], answers NaN, and [test_mannwhitney] prints the verdict
    "Есть статистически значимая разница." with the p-value NaN.  In every
    other case [test_mannwhitney] raises [TypeError] and prints nothing:
    from the call, which cannot bind the groups to the parameters, and with
    three groups from the check of [use_continuity]. *)
Theorem test_mannwhitney_group_count (df : DataFrame F)
    (target factor alternative : string)
    (key_of : Row F -> option (key F)) :
  let samples :=
    map (fun g => map (fun r => num r target) (snd g))
        (groupby key_eqb key_leb key_of (rows df)) in
  let n := List.length samples in
  let missing :=
    existsb is_nan (nth 0 samples []) || existsb is_nan (nth 1 samples []) in
  In target (float_columns df) ->
  group_key df factor = Ok key_of ->
  mannwhitneyu_checks mannwhitneyu ->
  n <> 2 ->
  test_mannwhitney mannwhitneyu df target factor alternative =
  if Nat.eqb n 3 && missing then
    Ok (factor, PrimFloat.nan, "Есть статистически значимая разница.")
  else Raise TypeError.
Proof.
  intros samples n missing Htarget Hfactor Hchecks H2.
  unfold test_mannwhitney.
  rewrite (grouped_lists_float _ _ _ _ Htarget Hfactor). cbn [bind].
  subst n missing samples.
  destruct (groupby key_eqb key_leb key_of (rows df))
    as [|g1 [|g2 [|g3 [|g4 [|g5 [|g6 [|g7 gs]]]]]]];
    cbn [map List.length] in H2 |- *; try reflexivity; try contradiction.
  (* three groups *)
  cbn [Nat.eqb andb nth].
  set (x := map (fun r => num r target) (snd g1)).
  set (y := map (fun r => num r target) (snd g2)).
  set (z := map (fun r => num r target) (snd g3)).
  change (bind_call mannwhitneyu_signature [VList x; VList y; VList z]
                    [("alternative", VStr alternative)])
    with (Ok [("x", VList x); ("y", VList y); ("use_continuity", VList z);
              ("alternative", VStr alternative)]).
  cbn [bind].
  destruct (Hchecks [("x", VList x); ("y", VList y); ("use_continuity", VList z);
                     ("alternative", VStr alternative)]) as [Hnan Hlist].
  change (has_nan (argument "x" [("x", VList x); ("y", VList y);
                                 ("use_continuity", VList z);
                                 ("alternative", VStr alternative)]))
    with (existsb is_nan x) in Hnan, Hlist.
  change (has_nan (argument "y" [("x", VList x); ("y", VList y);
                                 ("use_continuity", VList z);
                                 ("alternative", VStr alternative)]))
    with (existsb is_nan y) in Hnan, Hlist.
  destruct (existsb is_nan x || existsb is_nan y).
  - rewrite (Hnan eq_refl). reflexivity.
  - rewrite (Hlist eq_refl eq_refl). reflexivity.
Qed.

End MannWhitneyFacts.

Lemma mannwhitneyu_checked_checks :
  mannwhitneyu_checks Samples.mannwhitneyu_checked.
Proof.
  intro args. unfold Samples.mannwhitneyu_checked. split.
  - intros ->. reflexivity.
  - intros -> ->. reflexivity.
Qed.

(** C5 on the scores: one group. *)
Lemma test_mannwhitney_group_count_witness :
  test_mannwhitney Samples.mannwhitneyu_checked Samples.scores
                   "score" "g" "two-sided" = Raise TypeError.
Proof.
  apply (test_mannwhitney_group_count Samples.mannwhitneyu_checked
           Samples.scores "score" "g" "two-sided"
           (fun r => option_map KStr (cat r "g"))).
  - simpl. now left.
  - reflexivity.
  - exact mannwhitneyu_checked_checks.
  - vm_compute. discriminate.
Defined.

(** On three groups without missing values the third group is bound to
    [use_continuity], and the check of the routine raises [TypeError]. *)
Example test_mannwhitney_three_groups :
  bind_call mannwhitneyu_signature
            [VList [1]; VList [2]; VList [3]]%float
            [("alternative", VStr "two-sided")] =
    Ok [("x", VList [1]); ("y", VList [2]); ("use_continuity", VList [3]);
        ("alternative", VStr "two-sided")]%float /\
  test_mannwhitney Samples.mannwhitneyu_checked Samples.three_groups
                   "score" "g" "two-sided" = Raise TypeError.
Proof. split; vm_compute; reflexivity. Qed.

(** C5 as stated fails on three groups when the score of the first row is
    missing: the groups are bound to [x], [y] and [use_continuity], the
    routine answers NaN for the NaN in [x] before it checks its options, and
    a verdict is printed.  This holds with every routine that makes the
    checks of SciPy. *)
Lemma test_mannwhitney_three_groups_missing :
  List.length (groupby key_eqb key_leb (fun r => option_map KStr (cat r "g"))
                       (rows Samples.three_groups_missing)) = 3 /\
  (forall body,
     mannwhitneyu_checks body ->
     test_mannwhitney body Samples.three_groups_missing "score" "g" "two-sided" =
     Ok ("g", PrimFloat.nan, "Есть статистически значимая разница.")) /\
  test_mannwhitney Samples.mannwhitneyu_checked Samples.three_groups_missing
                   "score" "g" "two-sided" =
    Ok ("g", PrimFloat.nan, "Есть статистически значимая разница.").
Proof.
  split; [vm_compute; reflexivity|].
  split; [|vm_compute; reflexivity].
  intros body Hbody.
  assert (Hrun : test_mannwhitney body Samples.three_groups_missing
                   "score" "g" "two-sided" =
                 (sp <- body [("x", VList [PrimFloat.nan]); ("y", VList [2]);
                              ("use_continuity", VList [3]);
                              ("alternative", VStr "two-sided")]%float ;;
                  Ok (message "g" (snd sp)))) by reflexivity.
  rewrite Hrun.
  destruct (Hbody [("x", VList [PrimFloat.nan]); ("y", VList [2]);
                   ("use_continuity", VList [3]);
                   ("alternative", VStr "two-sided")]%float) as [Hnan _].
  rewrite Hnan by (vm_compute; reflexivity). reflexivity.
Qed.

(* ================================================================== *)
(** * The correlation ratio on binary64 *)







Section EtaFacts.

Variable scalar_pow2 series_pow2 : float -> float.
Variable series_sum : list float -> float.




End EtaFacts.



(** The same values with a missing group or a missing value next to them:
    the rows without an entry do not count. *)
Example get_eta_correlation_missing :
  get_eta_correlation Samples.square Samples.square sum
    [Samples.label_a; None; Samples.label_b; Samples.label_b; Samples.label_a]
    [0; 5; 0; 1; PrimFloat.nan]%float =
  get_eta_correlation Samples.square Samples.square sum
    [Samples.label_a; Samples.label_b; Samples.label_b] [0; 0; 1]%float /\
  get_eta_correlation Samples.square Samples.square sum [] [] = 0%float.
Proof. split; vm_compute; reflexivity. Qed.

Lemma sum_adds_in_order : adds_in_order sum.
Proof. intros xs _ _. reflexivity. Qed.

(** One call of [series_sum], on the series L. *)
Ltac add_up Hsum L :=
  rewrite (Hsum L)
    by (first [ cbn [List.length]; lia | vm_compute; reflexivity ]);
  cbv.

(** C8, as the code has it: on float64 the result is not invariant under a
    shift.  The column that holds 0.1 four times, in the groups a, a, a, b,
    gives 0.7071... (the mean of three 0.1 is not 0.1 but 0.1 + 2^-56);
    with -0.1 added to every value the column holds 0 and the result is 0.
    Both results are numbers.  This is so with every summation that adds a
    short series in order and every power [x ** 2] that is exact at 0 and
    at 2^-56 and -2^-56, whose squares float64 holds exactly. *)
Theorem get_eta_correlation_shift_sensitive :
  exists (groups : list (option (key float))) (values : list float) (c : float),
  forall (scalar_pow2 series_pow2 : float -> float)
         (series_sum : list float -> float),
    adds_in_order series_sum ->
    exact_square_at scalar_pow2 0 ->
    exact_square_at scalar_pow2 0x1p-56 ->
    exact_square_at series_pow2 0 ->
    exact_square_at series_pow2 (-0x1p-56) ->
    let shifted := map (fun v => PrimFloat.add v c) values in
    let r := get_eta_correlation scalar_pow2 series_pow2 series_sum
                                 groups values in
    let r' := get_eta_correlation scalar_pow2 series_pow2 series_sum
                                  groups shifted in
    PrimFloat.is_nan r = false /\
    PrimFloat.is_nan r' = false /\
    PrimFloat.eqb r r' = false /\
    PrimFloat.ltb 0.7071 r = true /\
    r' = 0%float.
Proof.
  exists [Samples.label_a; Samples.label_a; Samples.label_a; Samples.label_b],
         [0.1; 0.1; 0.1; 0.1]%float, (-0.1)%float.
  intros scalar_pow2 series_pow2 series_sum Hsum Hs0 Hs1 Hv0 Hv1.
  unfold exact_square_at in *.
  assert (Hr : get_eta_correlation scalar_pow2 series_pow2 series_sum
                 [Samples.label_a; Samples.label_a; Samples.label_a;
                  Samples.label_b] [0.1; 0.1; 0.1; 0.1]%float =
               0x1.6a09e667f3bcdp-1%float).
  { cbv.
    add_up Hsum [0.1; 0.1; 0.1; 0.1]%float.
    add_up Hsum [0.1; 0.1; 0.1]%float.
    add_up Hsum [0.1]%float.
    rewrite Hs0, Hs1, Hv0, Hv1. cbv.
    add_up Hsum [0x1p-112; 0x1p-112; 0x1p-112]%float.
    add_up Hsum [0]%float.
    reflexivity. }
  assert (Hr' : get_eta_correlation scalar_pow2 series_pow2 series_sum
                  [Samples.label_a; Samples.label_a; Samples.label_a;
                   Samples.label_b]
                  (map (fun v => PrimFloat.add v (-0.1))
                       [0.1; 0.1; 0.1; 0.1]%float) =
                0%float).
  { cbv.
    add_up Hsum [0; 0; 0; 0]%float.
    add_up Hsum [0; 0; 0]%float.
    add_up Hsum [0]%float.
    rewrite Hs0, Hv0. cbv.
    add_up Hsum [0; 0; 0]%float.
    try add_up Hsum [0]%float.
    reflexivity. }
  cbv zeta. rewrite Hr, Hr'. vm_compute. repeat split.
Qed.

(** C8 with the product x * x for the power and the sum from left to
    right. *)
Lemma get_eta_correlation_shift_sensitive_witness :
  exists (groups : list (option (key float))) (values : list float) (c : float),
    let shifted := map (fun v => PrimFloat.add v c) values in
    let r := get_eta_correlation Samples.square Samples.square sum
                                 groups values in
    let r' := get_eta_correlation Samples.square Samples.square sum
                                  groups shifted in
    PrimFloat.is_nan r = false /\
    PrimFloat.is_nan r' = false /\
    PrimFloat.eqb r r' = false /\
    PrimFloat.ltb 0.7071 r = true /\
    r' = 0%float.
Proof.
  destruct get_eta_correlation_shift_sensitive as [groups [values [c Hrun]]].
  exists groups, values, c.
  apply (Hrun Samples.square Samples.square sum).
  - exact sum_adds_in_order.
  - reflexivity.
  - reflexivity.
  - reflexivity.
  - reflexivity.
Defined.

(** C8 as stated fails on float64: the values 0, 0, 1 in the groups a, b, b
    give 0.5; shifted by 2^51 (each sum is exact: subtracting 2^51 gives
    the value back) they give more than 0.5625, for the mean 2^51 + 1/3 is
    rounded to 2^51 + 1/2. *)
Lemma get_eta_correlation_shift_binary64 :
  let groups := [Samples.label_a; Samples.label_b; Samples.label_b] in
  let values := [0; 0; 1]%float in
  let c := 0x1p+51%float in
  map (fun v => (v + c - c)%float) values = values /\
  get_eta_correlation Samples.square Samples.square sum groups values = 0.5%float /\
  PrimFloat.ltb 0.5625
    (get_eta_correlation Samples.square Samples.square sum groups
                         (map (fun v => PrimFloat.add v c) values))
    = true.
Proof. vm_compute. repeat split. Qed.

(* ================================================================== *)
(** * More on grouping *)

Section KeyPermutation.

Context {K : Type}.
Variable leb : K -> K -> bool.

Lemma insert_key_perm (k : K) (l : list K) :
  Permutation (insert_key leb k l) (k :: l).
Proof.
  induction l as [|y t IH]; cbn [insert_key]; [reflexivity|].
  destruct (leb k y); [reflexivity|].
  rewrite IH. apply perm_swap.
Qed.

Lemma sort_keys_perm (l : list K) : Permutation (sort_keys leb l) l.
Proof.
  induction l as [|y t IH]; [reflexivity|].
  cbn [sort_keys fold_right]. fold (sort_keys leb t).
  rewrite insert_key_perm. now apply perm_skip.
Qed.

End KeyPermutation.

Section KeyOrder.

Lemma ascii_compare_N (a b : ascii) :
  Ascii.compare a b = N.compare (N_of_ascii a) (N_of_ascii b).
Proof. reflexivity. Qed.

Lemma string_compare_trans (s1 : string) :
  forall s2 s3 c,
    String.compare s1 s2 = c -> String.compare s2 s3 = c ->
    String.compare s1 s3 = c.
Proof.
  induction s1 as [|a1 t1 IH]; intros [|a2 t2] [|a3 t3] c; cbn [String.compare];
    try congruence.
  rewrite !ascii_compare_N.
  destruct (N.compare_spec (N_of_ascii a1) (N_of_ascii a2)) as [E12|L12|G12];
    destruct (N.compare_spec (N_of_ascii a2) (N_of_ascii a3)) as [E23|L23|G23];
    intros H12 H23; subst; try congruence.
  - rewrite E12, E23, N.compare_refl. now apply IH with t2.
  - rewrite E12. now apply N.compare_lt_iff in L23 as ->.
  - rewrite E12. now apply N.compare_gt_iff in G23 as ->.
  - rewrite <- E23. now apply N.compare_lt_iff in L12 as ->.
  - assert (Hlt : (N_of_ascii a1 < N_of_ascii a3)%N) by lia.
    now apply N.compare_lt_iff in Hlt as ->.
  - rewrite <- E23. now apply N.compare_gt_iff in G12 as ->.
  - assert (Hlt : (N_of_ascii a3 < N_of_ascii a1)%N) by lia.
    now apply N.compare_gt_iff in Hlt as ->.
Qed.

Lemma string_leb_trans (s1 s2 s3 : string) :
  String.leb s1 s2 = true -> String.leb s2 s3 = true -> String.leb s1 s3 = true.
Proof.
  unfold String.leb.
  destruct (String.compare s1 s2) eqn:H12; try discriminate;
    destruct (String.compare s2 s3) eqn:H23; try discriminate; intros _ _.
  - now rewrite (string_compare_trans _ _ _ _ H12 H23).
  - apply String.compare_eq_iff in H12. subst. now rewrite H23.
  - apply String.compare_eq_iff in H23. subst. now rewrite H12.
  - now rewrite (string_compare_trans _ _ _ _ H12 H23).
Qed.

Lemma insert_key_sorted (k : string) (l : list string) :
  StronglySorted key_le l -> StronglySorted key_le (insert_key String.leb k l).
Proof.
  induction l as [|y t IH]; intro Hs; cbn [insert_key].
  - repeat constructor.
  - inversion Hs as [|y' t' Hst Hall]; subst.
    destruct (String.leb k y) eqn:Hky.
    + constructor; [exact Hs|]. constructor; [exact Hky|].
      eapply Forall_impl; [|exact Hall]. intros z Hz.
      now apply string_leb_trans with y.
    + constructor; [now apply IH|].
      assert (Hyk : key_le y k).
      { destruct (String.leb_total k y) as [Hle|Hle]; [congruence | exact Hle]. }
      apply Forall_forall. intros z Hz. apply insert_key_In in Hz.
      destruct Hz as [-> | Hz]; [exact Hyk|].
      rewrite Forall_forall in Hall. now apply Hall.
Qed.

Lemma sort_keys_sorted (l : list string) :
  StronglySorted key_le (sort_keys String.leb l).
Proof.
  induction l as [|y t IH]; [constructor|].
  cbn [sort_keys fold_right]. now apply insert_key_sorted.
Qed.

Lemma existsb_eqb_In (k : string) (l : list string) :
  existsb (String.eqb k) l = true <-> In k l.
Proof.
  rewrite existsb_exists. split.
  - intros [x [Hx Heq]]. apply String.eqb_eq in Heq. now subst.
  - intro Hk. exists k. split; [exact Hk | apply String.eqb_refl].
Qed.

Lemma distinct_In_iff (k : string) (l : list string) :
  In k (distinct String.eqb l) <-> In k l.
Proof.
  induction l as [|x t IH]; [tauto|].
  cbn [distinct]. destruct (existsb (String.eqb x) t) eqn:Hx.
  - apply existsb_eqb_In in Hx. rewrite IH. cbn [In].
    split; [tauto|]. intros [<- | Hk]; assumption.
  - cbn [In]. now rewrite IH.
Qed.

Lemma distinct_NoDup (l : list string) : NoDup (distinct String.eqb l).
Proof.
  induction l as [|x t IH]; [constructor|].
  cbn [distinct]. destruct (existsb (String.eqb x) t) eqn:Hx; [exact IH|].
  constructor; [|exact IH]. rewrite distinct_In_iff.
  intro Hin. apply existsb_eqb_In in Hin. congruence.
Qed.

End KeyOrder.

Section Partition.

Context {A : Type}.
Variable key : A -> option string.

Lemma has_key_Some (k : string) (a : A) :
  has_key String.eqb key k a = true <-> key a = Some k.
Proof.
  unfold has_key. destruct (key a) as [k'|].
  - rewrite String.eqb_eq. split; congruence.
  - split; discriminate.
Qed.

Lemma flat_map_agree (f g : string -> list A) (ks : list string) :
  (forall k, In k ks -> f k = g k) -> flat_map f ks = flat_map g ks.
Proof.
  induction ks as [|k t IH]; intro Hfg; [reflexivity|].
  cbn [flat_map]. rewrite (Hfg k (or_introl eq_refl)). f_equal.
  apply IH. intros k' Hk'. apply Hfg. now right.
Qed.

(** Over distinct keys that cover the keys present, the groups hold every
    row with a key once, and no other row. *)
Lemma groups_partition (ks : list string) (l : list A) :
  NoDup ks ->
  (forall k, In k (present_keys key l) -> In k ks) ->
  Permutation (flat_map (fun k => filter (has_key String.eqb key k) l) ks)
              (filter (has_any_key key) l).
Proof.
  intros Hnd. induction l as [|a t IH]; intro Hcover.
  - cbn [filter]. clear Hnd Hcover.
    induction ks as [|k ks' IHk]; [constructor | exact IHk].
  - cbn [present_keys] in Hcover. cbn [filter]. unfold has_any_key at 1.
    destruct (key a) as [k0|] eqn:Hka.
    + assert (Hk0 : In k0 ks) by (apply Hcover; now left).
      assert (IH' : Permutation
                (flat_map (fun k => filter (has_key String.eqb key k) t) ks)
                (filter (has_any_key key) t)).
      { apply IH. intros k Hk. apply Hcover. now right. }
      apply in_split in Hk0. destruct Hk0 as [ks1 [ks2 ->]].
      apply NoDup_remove_2 in Hnd.
      assert (Hoff : forall k, In k (ks1 ++ ks2) ->
                               has_key String.eqb key k a = false).
      { intros k Hk. unfold has_key. rewrite Hka.
        apply String.eqb_neq. intros ->. contradiction. }
      rewrite flat_map_app in *. cbn [flat_map] in *.
      rewrite (flat_map_agree _ (fun k => filter (has_key String.eqb key k) t) ks1)
        by (intros k Hk; cbn [filter];
            rewrite Hoff by (apply in_or_app; now left); reflexivity).
      rewrite (flat_map_agree _ (fun k => filter (has_key String.eqb key k) t) ks2)
        by (intros k Hk; cbn [filter];
            rewrite Hoff by (apply in_or_app; now right); reflexivity).
      cbn [filter]. unfold has_key at 2. rewrite Hka, String.eqb_refl.
      cbn [app]. rewrite <- IH'. symmetry. apply Permutation_middle.
    + rewrite (flat_map_agree _ (fun k => filter (has_key String.eqb key k) t) ks).
      * apply IH. exact Hcover.
      * intros k Hk. cbn [filter]. unfold has_key at 1. now rewrite Hka.
Qed.

Lemma groupby_keys (l : list A) :
  map fst (groupby String.eqb String.leb key l) =
  sort_keys String.leb (distinct String.eqb (present_keys key l)).
Proof. unfold groupby. rewrite map_map. cbn [fst]. apply map_id. Qed.

Lemma groupby_keys_sorted (l : list A) :
  StronglySorted key_le (map fst (groupby String.eqb String.leb key l)).
Proof. rewrite groupby_keys. apply sort_keys_sorted. Qed.

(** [groupby] loses no row that has a key and repeats none. *)
Lemma groupby_partition (l : list A) :
  Permutation (List.concat (map snd (groupby String.eqb String.leb key l)))
              (filter (has_any_key key) l).
Proof.
  unfold groupby. rewrite map_map. cbn [snd]. rewrite <- flat_map_concat_map.
  apply groups_partition.
  - apply (Permutation_NoDup (l := distinct String.eqb (present_keys key l))).
    + symmetry. apply sort_keys_perm.
    + apply distinct_NoDup.
  - intros k Hk. apply (proj2 (sort_keys_In _ _ _)). now apply distinct_In_iff.
Qed.

End Partition.

(** Grouping by the labels of an object column is grouping by strings. *)
Section Labels.

Context {F : Type} `{Arith F} {A : Type}.
Variable f : A -> option string.

Lemma present_keys_labels (l : list A) :
  present_keys (fun a => option_map (@KStr F) (f a)) l =
  map KStr (present_keys f l).
Proof.
  induction l as [|a t IH]; [reflexivity|].
  cbn [present_keys].
  destruct (f a); cbn [option_map map]; now rewrite IH.
Qed.

Lemma distinct_labels (ks : list string) :
  distinct key_eqb (map (@KStr F) ks) = map KStr (distinct String.eqb ks).
Proof.
  induction ks as [|k t IH]; [reflexivity|].
  cbn [map distinct].
  assert (Hex : existsb (key_eqb (KStr k)) (map (@KStr F) t) =
                existsb (String.eqb k) t).
  { clear. induction t as [|x t IH]; [reflexivity|].
    cbn [map existsb key_eqb]. now rewrite IH. }
  rewrite Hex. destruct (existsb (String.eqb k) t); cbn [map]; now rewrite IH.
Qed.

Lemma sort_keys_labels (ks : list string) :
  sort_keys key_leb (map (@KStr F) ks) = map KStr (sort_keys String.leb ks).
Proof.
  induction ks as [|k t IH]; [reflexivity|].
  cbn [map sort_keys fold_right].
  fold (sort_keys key_leb (map (@KStr F) t)). fold (sort_keys String.leb t).
  rewrite IH. clear IH.
  induction (sort_keys String.leb t) as [|y s IHs]; [reflexivity|].
  cbn [map insert_key key_leb]. destruct (String.leb k y); cbn [map];
    [reflexivity | now rewrite IHs].
Qed.

Lemma groupby_labels (l : list A) :
  groupby key_eqb key_leb (fun a => option_map (@KStr F) (f a)) l =
  map (fun g => (KStr (fst g), snd g)) (groupby String.eqb String.leb f l).
Proof.
  unfold groupby.
  rewrite present_keys_labels, distinct_labels, sort_keys_labels, !map_map.
  apply map_ext. intro k. cbn [fst snd]. f_equal.
  apply filter_ext. intro a. unfold has_key.
  destruct (f a); reflexivity.
Qed.

End Labels.

(* ================================================================== *)
(** * More on the grouped filter *)

Section GroupedMore.

Context {F : Type} `{Arith F}.
Local Open Scope arith_scope.

Lemma concat_length_le {A B} (f g : A -> list B) (l : list A) :
  (forall a, In a l -> (List.length (f a) <= List.length (g a))%nat) ->
  (List.length (List.concat (map f l)) <=
   List.length (List.concat (map g l)))%nat.
Proof.
  induction l as [|a t IH]; intro Hle; [apply le_n|].
  cbn [map List.concat]. rewrite !length_app.
  apply Nat.add_le_mono; [apply Hle; now left|].
  apply IH. intros b Hb. apply Hle. now right.
Qed.

(** The rows kept when the grouping column is an object column. *)
Lemma kept_grouped_labels (rs : list (Row F)) (column group_col : string)
    (k : F) :
  kept_grouped (fun r => option_map KStr (cat r group_col)) rs column k =
  List.concat
    (map (fun g => kept_in_group column k (snd g))
         (groupby String.eqb String.leb (fun r => cat r group_col) rs)).
Proof.
  unfold kept_grouped.
  rewrite (groupby_labels (fun r : Row F => cat r group_col)), map_map.
  reflexivity.
Qed.

Lemma kept_grouped_length (rs : list (Row F)) (column group_col : string)
    (k : F) :
  (List.length
     (kept_grouped (fun r => option_map KStr (cat r group_col)) rs column k) <=
   List.length rs)%nat.
Proof.
  rewrite kept_grouped_labels.
  apply Nat.le_trans with
    (List.length (List.concat
       (map snd (groupby String.eqb String.leb
                         (fun r : Row F => cat r group_col) rs)))).
  - apply concat_length_le. intros g _. apply filter_length_le.
  - rewrite (Permutation_length (groupby_partition _ _)).
    apply filter_length_le.
Qed.

(** A row of the result comes from a row of the table with a group, and
    passes the test of that group. *)
Lemma kept_grouped_within (rs : list (Row F)) (column group_col : string)
    (k : F) (r : Row F) :
  In r (kept_grouped (fun r => option_map KStr (cat r group_col)) rs column k) ->
  exists g,
    In r rs /\ cat r group_col = Some g /\
    let group := filter (fun r0 => match cat r0 group_col with
                                   | Some g0 => String.eqb g0 g
                                   | None => false
                                   end) rs in
    let xs := map (fun r => num r column) group in
    let Q1 := quantile 1 4 xs in
    let Q3 := quantile 3 4 xs in
    let IQR := Q3 - Q1 in
    (Q1 - k * IQR <=? num r column) = true /\
    (num r column <=? Q3 + k * IQR) = true.
Proof.
  rewrite kept_grouped_labels, in_concat.
  intros [group [Hrs Hr]]. apply in_map_iff in Hrs. destruct Hrs as [g [<- Hg]].
  destruct (groupby_In _ _ _ g _ Hg) as [Hsnd _].
  unfold kept_in_group in Hr. apply query_between_spec in Hr.
  destruct Hr as [Hr Hbounds]. rewrite Hsnd in Hr, Hbounds.
  apply filter_In in Hr. destruct Hr as [Hr Hk].
  exists (fst g). split; [exact Hr|].
  split; [now apply (has_key_Some (fun r => cat r group_col))|].
  exact Hbounds.
Qed.

(** X1.  With an object column as grouping column, the grouped filter in
    copy mode leaves the caller's table alone and returns a table with no
    more rows, labelled 0, 1, 2, ...; each of its rows has the cells of a
    row of the table that has a group, and its value in the column lies
    between Q1 - k * IQR and Q3 + k * IQR, the quantiles being those of the
    rows of that group. *)
Theorem drop_outliers_grouped_copy_within_bounds (T : DataFrame F)
    (C G : string) (k : F) (out : outcome F) :
  In C (float_columns T) ->
  In G (object_columns T) ->
  drop_outliers_grouped T C G k false = Ok out ->
  caller_table out = T /\
  exists result,
    returned out = Some result /\
    (List.length (rows result) <= List.length (rows T))%nat /\
    map label (rows result) =
      map Z.of_nat (seq 0 (List.length (rows result))) /\
    forall r, In r (rows result) ->
      exists r0 g,
        In r0 (rows T) /\ num r = num r0 /\ cat r = cat r0 /\
        cat r0 G = Some g /\
        let group := filter (fun r1 => match cat r1 G with
                                       | Some g1 => String.eqb g1 g
                                       | None => false
                                       end) (rows T) in
        let xs := map (fun r => num r C) group in
        let Q1 := quantile 1 4 xs in
        let Q3 := quantile 3 4 xs in
        let IQR := Q3 - Q1 in
        (Q1 - k * IQR <=? num r C) = true /\
        (num r C <=? Q3 + k * IQR) = true.
Proof.
  intros Hc Hg Hrun.
  rewrite (drop_outliers_grouped_run _ _ _ _ _ _ Hc (group_key_present _ _ Hg))
    in Hrun.
  destruct (groupby _ _ _ (rows T)) eqn:Hgroups; [discriminate|].
  cbv zeta in Hrun. injection Hrun as <-. cbn [caller_table returned].
  split; [reflexivity|]. eexists. split; [reflexivity|].
  cbn [rows with_rows]. unfold reset_index. split; [|split].
  - rewrite relabel_length. apply kept_grouped_length.
  - rewrite relabel_labels, relabel_length. apply map_ext. intro n. lia.
  - intros r Hr. apply relabel_In in Hr. destruct Hr as [r0 [Hr0 [Hnum Hcat]]].
    destruct (kept_grouped_within _ _ _ _ _ Hr0) as [g [Hin [Hkey Hb]]].
    exists r0, g. rewrite Hnum. repeat split; try assumption; apply Hb.
Qed.

Lemma concat_keys_sorted (key : Row F -> option string)
    (groups : list (string * list (Row F))) :
  StronglySorted key_le (map fst groups) ->
  (forall g r, In g groups -> In r (snd g) -> key r = Some (fst g)) ->
  exists ks,
    map key (List.concat (map snd groups)) = map Some ks /\
    StronglySorted key_le ks /\
    forall k, In k ks -> In k (map fst groups).
Proof.
  induction groups as [|[k0 rs] t IH]; intros Hs Hkeys.
  - exists []. repeat split; [constructor | intros k []].
  - cbn [map fst] in Hs. inversion Hs as [|k' t' Hst Hall]; subst.
    destruct IH as [ks [Hmap [Hsorted Hsub]]];
      [exact Hst | intros g r Hg Hr; apply Hkeys; [now right | exact Hr] |].
    exists (repeat k0 (List.length rs) ++ ks).
    cbn [map snd List.concat]. rewrite !map_app, Hmap. split; [|split].
    + f_equal.
      assert (Hrs : forall r, In r rs -> key r = Some k0).
      { intros r Hr. apply (Hkeys (k0, rs) r); [now left | exact Hr]. }
      clear - Hrs. induction rs as [|r rs' IHr]; [reflexivity|].
      cbn [map List.length repeat]. rewrite (Hrs r (or_introl eq_refl)).
      f_equal. apply IHr. intros r' Hr'. apply Hrs. now right.
    + induction (List.length rs) as [|n IHn]; [exact Hsorted|].
      cbn [repeat app]. constructor; [exact IHn|].
      apply Forall_forall. intros k Hk. apply in_app_or in Hk.
      destruct Hk as [Hk | Hk].
      * apply repeat_spec in Hk. subst. unfold key_le.
        destruct (String.leb_total k0 k0); assumption.
      * rewrite Forall_forall in Hall. apply Hall, Hsub, Hk.
    + intros k Hk. apply in_app_or in Hk. destruct Hk as [Hk | Hk].
      * apply repeat_spec in Hk. subst. now left.
      * right. now apply Hsub.
Qed.

(** X2.  With an object column as grouping column, the table the grouped
    filter returns is ordered by group: along its rows the labels of the
    grouping column are all present and never decrease in the order of
    strings. *)
Theorem drop_outliers_grouped_copy_sorted (T : DataFrame F) (C G : string)
    (k : F) (out : outcome F) :
  In C (float_columns T) ->
  In G (object_columns T) ->
  drop_outliers_grouped T C G k false = Ok out ->
  exists result ks,
    returned out = Some result /\
    map (fun r => cat r G) (rows result) = map Some ks /\
    StronglySorted (fun a b => String.leb a b = true) ks.
Proof.
  intros Hc Hg Hrun.
  rewrite (drop_outliers_grouped_run _ _ _ _ _ _ Hc (group_key_present _ _ Hg))
    in Hrun.
  destruct (groupby _ _ _ (rows T)) eqn:Hgroups; [discriminate|].
  cbv zeta in Hrun. injection Hrun as <-. cbn [returned].
  clear Hgroups.
  destruct (concat_keys_sorted (fun r => cat r G)
              (map (fun g => (fst g, kept_in_group C k (snd g)))
                   (groupby String.eqb String.leb (fun r => cat r G) (rows T))))
    as [ks [Hmap [Hsorted _]]].
  - rewrite map_map. cbn [fst]. apply groupby_keys_sorted.
  - intros g r Hgin Hr. apply in_map_iff in Hgin.
    destruct Hgin as [g0 [<- Hg0]]. cbn [fst snd] in *.
    unfold kept_in_group in Hr. apply query_between_spec in Hr.
    destruct Hr as [Hr _].
    destruct (groupby_In _ _ _ g0 _ Hg0) as [Hsnd _]. rewrite Hsnd in Hr.
    apply filter_In in Hr. destruct Hr as [_ Hk].
    now apply (has_key_Some (fun r => cat r G)).
  - eexists. exists ks. split; [reflexivity|]. split; [|exact Hsorted].
    cbn [rows with_rows]. unfold reset_index.
    rewrite map_map, (map_ext _ (fun g => kept_in_group C k (snd g))) in Hmap
      by reflexivity.
    rewrite <- kept_grouped_labels in Hmap. rewrite <- Hmap.
    generalize (kept_grouped (fun r => option_map KStr (cat r G)) (rows T) C k).
    intro rs. generalize 0%Z.
    induction rs as [|r t IH]; intro i; [reflexivity|].
    cbn [relabel map cat]. now rewrite IH.
Qed.

End GroupedMore.

(* ================================================================== *)
(** * Missing values *)

Section MissingValues.

Context {F : Type} `{NanOrder F}.
Local Open Scope arith_scope.

(** X3.  A row whose value in the column is missing does not pass the
    filter: in the table [drop_outliers] produces on a column with a plain
    name, in either mode, every row has a value in the column. *)
Theorem drop_outliers_drops_missing
    (query_other : DataFrame F -> string -> F -> F -> pyresult (list (Row F)))
    (T : DataFrame F) (C : string) (k : F)
    (inplace : bool) (out : outcome F) :
  plain_name C = true ->
  drop_outliers query_other T C k inplace = Ok out ->
  forall r, In r (rows (produced out)) -> is_nan (num r C) = false.
Proof.
  intros Hplain Hrun r Hr. unfold drop_outliers, query in Hrun.
  rewrite Hplain in Hrun.
  destruct (float_column T C) as [xs|e]; cbn [bind] in Hrun; [|discriminate].
  assert (Hin : In r (query_between (lower_bound k xs) (upper_bound k xs) C
                                    (rows T))).
  { destruct inplace; injection Hrun as <-; exact Hr. }
  apply query_between_spec in Hin. destruct Hin as [_ [Hlo _]].
  now apply fle_nan in Hlo.
Qed.

(** X4.  The same holds of the grouped filter in copy mode: every row of
    the table returned has a value in the filtered column. *)
Theorem drop_outliers_grouped_drops_missing (T : DataFrame F) (C G : string)
    (k : F) (out : outcome F) (result : DataFrame F) :
  In C (float_columns T) ->
  In G (object_columns T) ->
  drop_outliers_grouped T C G k false = Ok out ->
  returned out = Some result ->
  forall r, In r (rows result) -> is_nan (num r C) = false.
Proof.
  intros Hc Hg Hrun Hret r Hr.
  rewrite (drop_outliers_grouped_run _ _ _ _ _ _ Hc (group_key_present _ _ Hg))
    in Hrun.
  destruct (groupby _ _ _ (rows T)); [discriminate|].
  cbv zeta in Hrun. injection Hrun as <-. cbn [returned] in Hret.
  injection Hret as <-. cbn [rows with_rows] in Hr.
  apply relabel_In in Hr. destruct Hr as [r0 [Hr0 [Hnum _]]].
  destruct (kept_grouped_within _ _ _ _ _ Hr0) as [g [_ [_ Hb]]].
  cbv zeta in Hb. destruct Hb as [Hlo _]. rewrite Hnum.
  now apply fle_nan in Hlo.
Qed.

End MissingValues.

(* ================================================================== *)
(** * More on the tests of [hypothesis] *)

Section GroupKeys.

Context {A : Type}.
Variable key : A -> option string.

Lemma groupby_keys_NoDup (l : list A) :
  NoDup (map fst (groupby String.eqb String.leb key l)).
Proof.
  rewrite groupby_keys.
  apply (Permutation_NoDup (l := distinct String.eqb (present_keys key l))).
  - symmetry. apply sort_keys_perm.
  - apply distinct_NoDup.
Qed.

Lemma groupby_nonempty (g : string * list A) (l : list A) :
  In g (groupby String.eqb String.leb key l) -> snd g <> [].
Proof.
  intro Hg. destruct (groupby_In _ _ key g l Hg) as [Hsnd [a [Ha Hk]]].
  rewrite Hsnd. intro Hnil.
  assert (Hin : In a (filter (has_key String.eqb key (fst g)) l)).
  { apply filter_In. split; [exact Ha|]. now apply has_key_Some. }
  rewrite Hnil in Hin. destruct Hin.
Qed.

End GroupKeys.

(** The verdict of the printed line: a p-value that is NaN is not at least
    0.05, and gets the verdict of a difference. *)
Lemma message_verdict (factor : string) (p : float) :
  fst (fst (message factor p)) = factor /\
  snd (fst (message factor p)) = p /\
  (snd (message factor p) = "Нет статистически значимой разницы." <->
   PrimFloat.leb 0.05 p = true) /\
  (snd (message factor p) = "Есть статистически значимая разница." <->
   PrimFloat.leb 0.05 p = false) /\
  (PrimFloat.is_nan p = true ->
   snd (message factor p) = "Есть статистически значимая разница.").
Proof.
  unfold message. cbn [fst snd]. split; [reflexivity|]. split; [reflexivity|].
  destruct (PrimFloat.leb 0.05 p) eqn:Hle.
  - split; [tauto|]. split; [split; discriminate|].
    intro Hn. apply binary64_nan_eq in Hn. rewrite Hn, binary64_leb_nan in Hle.
    discriminate.
  - split; [split; discriminate|]. split; [tauto|]. reflexivity.
Qed.

Section TestsMore.

Context {F : Type} `{Arith F}.
Variable mannwhitneyu : list (string * pyvalue F) -> pyresult (float * float).
Variable kruskal : list (pyvalue F) -> pyresult (float * float).

Lemma grouped_lists_labels (df : DataFrame F) (target factor : string) :
  In target (float_columns df) ->
  In factor (object_columns df) ->
  grouped_lists df target factor =
  Ok (map (fun g => VList (map (fun r => num r target) (snd g)))
          (groupby String.eqb String.leb (fun r => cat r factor) (rows df))).
Proof.
  intros Htarget Hfactor.
  rewrite (grouped_lists_float _ _ _ _ Htarget (group_key_present _ _ Hfactor)).
  rewrite (groupby_labels (fun r : Row F => cat r factor)), map_map.
  reflexivity.
Qed.

(** X10.  With a float64 target and exactly two groups in an object factor
    column, [test_mannwhitney] calls the routine with x the values of the
    group whose label comes first in the order of strings, y those of the
    other group, and the alternative as given; an exception of the routine
    is raised to the caller, and otherwise the line printed names the
    factor and the p-value, with "Нет статистически значимой разницы."
    exactly when 0.05 <= p holds; a p-value that is NaN gets "Есть
    статистически значимая разница.". *)
Theorem test_mannwhitney_two_groups (df : DataFrame F)
    (target factor alternative : string)
    (k1 k2 : string) (g1 g2 : list (Row F)) :
  In target (float_columns df) ->
  In factor (object_columns df) ->
  groupby String.eqb String.leb (fun r => cat r factor) (rows df) =
    [(k1, g1); (k2, g2)] ->
  String.leb k1 k2 = true /\ k1 <> k2 /\
  g1 = filter (fun r => match cat r factor with
                        | Some k => String.eqb k k1
                        | None => false
                        end) (rows df) /\
  g2 = filter (fun r => match cat r factor with
                        | Some k => String.eqb k k2
                        | None => false
                        end) (rows df) /\
  let args := [("x", VList (map (fun r => num r target) g1));
               ("y", VList (map (fun r => num r target) g2));
               ("alternative", VStr alternative)] in
  match mannwhitneyu args with
  | Raise e =>
      test_mannwhitney mannwhitneyu df target factor alternative = Raise e
  | Ok sp =>
      exists verdict,
        test_mannwhitney mannwhitneyu df target factor alternative =
          Ok (factor, snd sp, verdict) /\
        (verdict = "Нет статистически значимой разницы." <->
         PrimFloat.leb 0.05 (snd sp) = true) /\
        (verdict = "Есть статистически значимая разница." <->
         PrimFloat.leb 0.05 (snd sp) = false) /\
        (PrimFloat.is_nan (snd sp) = true ->
         verdict = "Есть статистически значимая разница.")
  end.
Proof.
  intros Htarget Hfactor Hgroups.
  pose proof (groupby_keys_sorted (fun r => cat r factor) (rows df)) as Hs.
  pose proof (groupby_keys_NoDup (fun r => cat r factor) (rows df)) as Hnd.
  rewrite Hgroups in Hs, Hnd. cbn [map fst] in Hs, Hnd.
  split.
  { inversion Hs as [|a l _ Hall]; subst. now inversion Hall. }
  split.
  { inversion Hnd as [|a l Hnotin _]; subst. intro Heq. apply Hnotin.
    now left. }
  split.
  { apply (groupby_In String.eqb String.leb (fun r => cat r factor) (k1, g1)). rewrite Hgroups.
    now left. }
  split.
  { apply (groupby_In String.eqb String.leb (fun r => cat r factor) (k2, g2)). rewrite Hgroups.
    right. now left. }
  cbv zeta. unfold test_mannwhitney.
  rewrite (grouped_lists_labels _ _ _ Htarget Hfactor), Hgroups.
  cbn [bind map snd]. change (bind_call _ _ _) with
    (Ok [("x", VList (map (fun r => num r target) g1));
         ("y", VList (map (fun r => num r target) g2));
         ("alternative", VStr alternative)]
     : pyresult (list (string * pyvalue F))).
  cbn [bind].
  destruct (mannwhitneyu _) as [sp|e]; cbn [bind]; [|reflexivity].
  exists (snd (message factor (snd sp))).
  destruct (message_verdict factor (snd sp)) as [_ [_ [Hno [Hyes Hnan]]]].
  split; [reflexivity|]. repeat split; try apply Hno; try apply Hyes.
  exact Hnan.
Qed.

(** X11.  With a float64 target and an object factor column,
    [test_kruskal] hands to the routine one sample per group, the groups in
    the increasing order of their labels, each label once; the sample of a
    group holds the target values of the rows with this label, in table
    order, and is not empty; together the samples hold the value of every
    row that has a label once.  The routine is called whatever the number
    of groups, and its exception is raised to the caller; otherwise the
    line printed says "Нет статистически значимой разницы." exactly when
    0.05 <= p holds. *)
Theorem test_kruskal_samples (df : DataFrame F) (target factor : string) :
  In target (float_columns df) ->
  In factor (object_columns df) ->
  exists groups : list (string * list (Row F)),
    let samples := map (fun g => map (fun r => num r target) (snd g)) groups in
    grouped_lists df target factor = Ok (map VList samples) /\
    StronglySorted (fun a b => String.leb a b = true) (map fst groups) /\
    NoDup (map fst groups) /\
    (forall g, In g groups ->
       snd g <> [] /\
       snd g = filter (fun r => match cat r factor with
                                | Some k => String.eqb k (fst g)
                                | None => false
                                end) (rows df)) /\
    Permutation (List.concat samples)
      (map (fun r => num r target)
           (filter (fun r => match cat r factor with
                             | Some _ => true
                             | None => false
                             end) (rows df))) /\
    match kruskal (map VList samples) with
    | Raise e => test_kruskal kruskal df target factor = Raise e
    | Ok sp =>
        exists verdict,
          test_kruskal kruskal df target factor =
            Ok (factor, snd sp, verdict) /\
          (verdict = "Нет статистически значимой разницы." <->
           PrimFloat.leb 0.05 (snd sp) = true) /\
          (verdict = "Есть статистически значимая разница." <->
           PrimFloat.leb 0.05 (snd sp) = false)
    end.
Proof.
  intros Htarget Hfactor.
  exists (groupby String.eqb String.leb (fun r => cat r factor) (rows df)).
  cbv zeta. rewrite map_map.
  split; [apply (grouped_lists_labels _ _ _ Htarget Hfactor)|].
  split; [apply groupby_keys_sorted|].
  split; [apply groupby_keys_NoDup|].
  split; [|split].
  - intros g Hg. split; [now apply (groupby_nonempty _ _ _ Hg)|].
    now apply (groupby_In String.eqb String.leb (fun r => cat r factor) g).
  - rewrite <- (map_map snd (map (fun r => num r target))).
    rewrite <- concat_map. apply Permutation_map.
    apply (groupby_partition (fun r : Row F => cat r factor)).
  - unfold test_kruskal.
    rewrite (grouped_lists_labels _ _ _ Htarget Hfactor). cbn [bind].
    destruct (kruskal _) as [sp|e]; cbn [bind]; [|reflexivity].
    exists (snd (message factor (snd sp))).
    destruct (message_verdict factor (snd sp)) as [_ [_ [Hno [Hyes _]]]].
    split; [reflexivity|]. split; assumption.
Qed.

End TestsMore.

(* ================================================================== *)
(** * The extras on the sample tables *)

(** X1 on the scores. *)
Lemma drop_outliers_grouped_copy_within_bounds_witness :
  exists out,
    drop_outliers_grouped Samples.scores "score" "g" 1.5%float false = Ok out /\
    caller_table out = Samples.scores.
Proof.
  destruct (drop_outliers_grouped Samples.scores "score" "g" 1.5%float false)
    as [out|e] eqn:Hrun.
  - exists out. split; [reflexivity|].
    apply (drop_outliers_grouped_copy_within_bounds
             Samples.scores "score" "g" 1.5%float out).
    + simpl. now left.
    + simpl. now left.
    + exact Hrun.
  - vm_compute in Hrun. discriminate.
Defined.

(** X2 on two groups given in the order b, a, b, a. *)
Lemma drop_outliers_grouped_copy_sorted_witness :
  exists out result ks,
    drop_outliers_grouped Samples.two_groups "score" "g" 1.5%float false =
      Ok out /\
    returned out = Some result /\
    map (fun r => cat r "g") (rows result) = map Some ks /\
    StronglySorted (fun a b => String.leb a b = true) ks.
Proof.
  destruct (drop_outliers_grouped Samples.two_groups "score" "g"
                                  1.5%float false) as [out|e] eqn:Hrun.
  - destruct (drop_outliers_grouped_copy_sorted
                Samples.two_groups "score" "g" 1.5%float out)
      as [result [ks Hks]].
    + simpl. now left.
    + simpl. now left.
    + exact Hrun.
    + exists out, result, ks. split; [reflexivity | exact Hks].
  - vm_compute in Hrun. discriminate.
Defined.

(** The order of the rows on that table: a, a, b, b. *)
Example two_groups_scenario :
  Samples.observe
    (drop_outliers_grouped Samples.two_groups "score" "g" 1.5%float false) =
  Some (map Samples.view (rows Samples.two_groups),
        Some [Samples.cells 0 1 (Some "a"); Samples.cells 1 2 (Some "a");
              Samples.cells 2 7 (Some "b"); Samples.cells 3 8 (Some "b")]).
Proof. vm_compute. reflexivity. Qed.

(** X3 on a table with a missing score. *)
Lemma drop_outliers_drops_missing_witness :
  exists out,
    drop_outliers no_other_query Samples.with_missing_row "score" 1.5%float true =
      Ok out /\
    forall r, In r (rows (produced out)) ->
      PrimFloat.is_nan (num r "score") = false.
Proof.
  destruct (drop_outliers no_other_query Samples.with_missing_row "score"
                          1.5%float true)
    as [out|e] eqn:Hrun.
  - exists out. split; [reflexivity|].
    exact (drop_outliers_drops_missing no_other_query
             Samples.with_missing_row "score" 1.5%float true out
             eq_refl Hrun).
  - vm_compute in Hrun. discriminate.
Defined.

(** X4 on the same table. *)
Lemma drop_outliers_grouped_drops_missing_witness :
  exists out result,
    drop_outliers_grouped Samples.with_missing_row "score" "g" 1.5%float false =
      Ok out /\
    returned out = Some result /\
    forall r, In r (rows result) -> PrimFloat.is_nan (num r "score") = false.
Proof.
  destruct (drop_outliers_grouped Samples.with_missing_row "score" "g"
                                  1.5%float false) as [out|e] eqn:Hrun.
  - destruct (returned out) as [result|] eqn:Hret.
    + exists out, result. split; [reflexivity|]. split; [exact Hret|].
      assert (Hc : In "score" (float_columns Samples.with_missing_row))
        by (simpl; now left).
      assert (Hg : In "g" (object_columns Samples.with_missing_row))
        by (simpl; now left).
      exact (drop_outliers_grouped_drops_missing
               Samples.with_missing_row "score" "g" 1.5%float out result
               Hc Hg Hrun Hret).
    + vm_compute in Hrun. injection Hrun as <-. discriminate.
  - vm_compute in Hrun. discriminate.
Defined.

(** X10 on two groups: x is group "a", though "b" comes first in the table. *)
Lemma test_mannwhitney_two_groups_witness :
  test_mannwhitney Samples.mannwhitneyu_checked Samples.two_groups
                   "score" "g" "less" =
  Ok ("g", 0.01%float, "Есть статистически значимая разница.") /\
  grouped_lists Samples.two_groups "score" "g" =
  Ok [VList [1; 2]; VList [7; 8]]%float.
Proof.
  pose proof (test_mannwhitney_two_groups Samples.mannwhitneyu_checked
                Samples.two_groups "score" "g" "less" "a" "b"
                [Samples.row 1 1 (Some "a"); Samples.row 3 2 (Some "a")]
                [Samples.row 0 7 (Some "b"); Samples.row 2 8 (Some "b")])
    as Htwo.
  destruct Htwo as [_ [_ [_ [_ Hcall]]]].
  - simpl. now left.
  - simpl. now left.
  - vm_compute. reflexivity.
  - cbv zeta in Hcall.
    change (Samples.mannwhitneyu_checked _) with
      (Ok (0, 0.01)%float : pyresult (float * float)) in Hcall.
    destruct Hcall as [verdict [Hrun _]]. split.
    + rewrite Hrun. vm_compute in Hrun. injection Hrun as <-. reflexivity.
    + vm_compute. reflexivity.
Defined.

(** X11 on three groups. *)
Lemma test_kruskal_samples_witness :
  exists samples,
    grouped_lists Samples.three_groups "score" "g" = Ok (map VList samples) /\
    List.length samples = 3.
Proof.
  destruct (test_kruskal_samples kruskal_half
              Samples.three_groups "score" "g")
    as [groups [Hrun _]].
  - simpl. now left.
  - simpl. now left.
  - exists (map (fun g => map (fun r => num r "score") (snd g)) groups).
    split; [exact Hrun|].
    assert (Hl : grouped_lists Samples.three_groups "score" "g" =
                 Ok [VList [1]; VList [2]; VList [3]]%float)
      by (vm_compute; reflexivity).
    rewrite Hl in Hrun. injection Hrun as Hrun.
    apply (f_equal (@List.length _)) in Hrun.
    rewrite length_map in Hrun. cbn in Hrun. now symmetry.
Defined.
